(** * WhereHows web client: the fetch helpers of [utils/api/fetcher.ts]
    and the compliance data type declarations.

    The helpers build a request option bag out of a caller's configuration
    object with [Object.assign] and object spread, hand it to the platform's
    [fetch], and settle with the decoded body, the response headers, or an
    [ApiError].  The embedding keeps JavaScript's object store explicit:
    objects live in a heap, [Object.assign] writes into its target, and the
    helpers are state-passing functions over that heap which end in a
    pending interaction with the platform ([fetch], [response.json()]).

    Part I holds the definitions, Part II the properties. *)

From Stdlib Require Import ZArith String Ascii List Lia.
From Stdlib Require Import DecimalString DecimalZ DecimalN DecimalPos DecimalFacts.
From stdpp Require Import base option list strings.

Local Open Scope string_scope.
Local Open Scope list_scope.

(** * Part I: the model *)

(** ** JavaScript values and the object heap *)

(** Heap locations. *)
Abbreviation loc := nat.

(** Numbers are the integers; strings are sequences of 8-bit characters. *)
Inductive val : Type :=
  | VUndefined
  | VNull
  | VBool (b : bool)
  | VNum (n : Z)
  | VStr (s : string)
  | VRef (l : loc).

(** Own enumerable string-keyed properties, in creation order.  (The
    engine's reordering of integer-like keys is not modelled; the keys of
    this module are names.) *)
Definition props := list (string * val).

(** Heap cells: ordinary objects, arrays, and instances of the platform's
    [Headers] class.  A [Headers] instance keeps its header list in an
    internal slot; its accessors live on the prototype, so the instance has
    no own enumerable property. *)
Inductive cell : Type :=
  | Obj (ps : props)
  | Arr (items : list val)
  | HeadersObj (entries : list (string * string)).

Abbreviation heap := (list cell).

Fixpoint get_prop (k : string) (ps : props) : option val :=
  match ps with
  | [] => None
  | (k', v) :: ps' => if String.eqb k k' then Some v else get_prop k ps'
  end.

(** [o[k] = v] on an ordinary object: an existing key keeps its position. *)
Fixpoint set_prop (k : string) (v : val) (ps : props) : props :=
  match ps with
  | [] => [(k, v)]
  | (k', v') :: ps' =>
      if String.eqb k k' then (k, v) :: ps' else (k', v') :: set_prop k v ps'
  end.

Definition keys (ps : props) : list string := map fst ps.

Definition index_key (i : nat) : string :=
  NilEmpty.string_of_uint (Nat.to_uint i).

Definition indexed (vs : list val) : props :=
  imap (fun i v => (index_key i, v)) vs.

Fixpoint chars (s : string) : list val :=
  match s with
  | EmptyString => []
  | String c s' => VStr (String c EmptyString) :: chars s'
  end.

Definition cell_props (c : option cell) : props :=
  match c with
  | Some (Obj ps) => ps
  | Some (Arr items) => indexed items
  | Some (HeadersObj _) => []
  | None => []
  end.

(** The own enumerable properties [Object.assign] and spread read from a
    source value (after [ToObject]); [undefined], [null], booleans and
    numbers contribute none. *)
Definition own_props (h : heap) (v : val) : props :=
  match v with
  | VRef l => cell_props (h !! l)
  | VStr s => indexed (chars s)
  | _ => []
  end.

(** Property read [o.k] for the keys this module reads ([url], [headers],
    [data]): none of them is inherited, so the read sees own properties
    only and yields [undefined] otherwise. *)
Definition get (h : heap) (o : val) (k : string) : val :=
  default VUndefined (get_prop k (own_props h o)).

Definition ToBoolean (v : val) : bool :=
  match v with
  | VUndefined | VNull => false
  | VBool b => b
  | VNum n => negb (Z.eqb n 0)
  | VStr EmptyString => false
  | VStr (String _ _) => true
  | VRef _ => true
  end.

(** The loop of [Object.assign] and of spread for one source: every own key
    of the source, in order, is read from the source and set on the target. *)
Definition assign_props (target source : props) : props :=
  fold_left
    (fun t k => set_prop k (default VUndefined (get_prop k source)) t)
    (keys source) target.

(** The targets of this module are freshly created ordinary objects. *)
Definition assign_cell (source : props) (c : cell) : cell :=
  match c with
  | Obj ps => Obj (assign_props ps source)
  | _ => c
  end.

(** ** Failures and completions *)

(** What a call can throw or a promise can reject with: the [ApiError] this
    module constructs, or any other value raised by the platform. *)
Inductive failure : Type :=
  | ApiError (status : Z) (message : string)
  | Raised (reason : val).

Inductive completion (A : Type) : Type :=
  | Normal (a : A)
  | Throw (e : failure).
Arguments Normal {A} a.
Arguments Throw {A} e.

(** Synchronous code: a heap transformer that completes normally or throws. *)
Definition M (A : Type) : Type := heap -> heap * completion A.

Definition ret {A} (a : A) : M A := fun h => (h, Normal a).

Definition bind {A B} (m : M A) (f : A -> M B) : M B :=
  fun h =>
    match m h with
    | (h', Normal a) => f a h'
    | (h', Throw e) => (h', Throw e)
    end.

Notation "'let!' x ':=' m 'in' k" := (bind m (fun x => k))
  (at level 10, x name, m at level 100, k at level 200).
Notation "'do!' m 'in' k" := (bind m (fun _ => k))
  (at level 10, m at level 100, k at level 200).

Definition alloc (c : cell) : M loc := fun h => (h ++ [c], Normal (length h)).

Definition read {A} (f : heap -> A) : M A := fun h => (h, Normal (f h)).

Definition write (l : loc) (f : cell -> cell) : M unit :=
  fun h => (alter f l h, Normal tt).

(** [o.k] *)
Definition member (o : val) (k : string) : M val := read (fun h => get h o k).

(** ** Object literals, spread and [Object.assign] *)

Inductive property_definition : Type :=
  | Field (k : string) (e : M val)
  | Spread (e : M val).

(** CopyDataProperties, and one source of [Object.assign]. *)
Definition copy_props (target : loc) (source : val) : M unit :=
  let! ps := read (fun h => own_props h source) in
  write target (assign_cell ps).

Definition define_one (o : loc) (d : property_definition) : M unit :=
  match d with
  | Field k e => let! v := e in write o (assign_cell [(k, v)])
  | Spread e => let! v := e in copy_props o v
  end.

Fixpoint define_all (o : loc) (ds : list property_definition) : M unit :=
  match ds with
  | [] => ret tt
  | d :: ds' => do! define_one o d in define_all o ds'
  end.

(** [{ d1, ..., dn }]: the object is created first, then the definitions
    are evaluated and installed from left to right. *)
Definition object_literal (ds : list property_definition) : M val :=
  let! o := alloc (Obj []) in
  do! define_all o ds in
  ret (VRef o).

Fixpoint assign_all (target : loc) (sources : list val) : M unit :=
  match sources with
  | [] => ret tt
  | s :: ss => do! copy_props target s in assign_all target ss
  end.

(** [Object.assign(target, ...sources)] for an object [target]: the sources
    are copied into the target from left to right and the target itself is
    returned. *)
Definition Object_assign (target : val) (sources : list val) : M val :=
  match target with
  | VRef t => do! assign_all t sources in ret target
  | _ => ret target
  end.

(** ** Pending results and the platform's asynchronous calls *)

(** What this module reads of a [Response]: the success flag, the numeric
    status and the header collection.  The body is obtained by asking the
    platform to decode it ([AwaitJson] below). *)
Record Response : Type := { ok : bool; status : Z; headers : val }.

Inductive outcome (A : Type) : Type :=
  | Fulfilled (a : A)
  | Rejected (e : failure).
Arguments Fulfilled {A} a.
Arguments Rejected {A} e.

(** A promise as the tree of the platform interactions still ahead of it:
    it is settled, or it waits for [fetch(url, init)] or for
    [response.json()] and continues with whatever the platform answers. *)
Inductive promise (A : Type) : Type :=
  | Settled (o : outcome A)
  | AwaitFetch (url init : val) (k : outcome Response -> promise A)
  | AwaitJson (r : Response) (k : outcome val -> promise A).
Arguments Settled {A} o.
Arguments AwaitFetch {A} url init k.
Arguments AwaitJson {A} r k.

(** [p.then(onFulfilled)], and equally [await p] followed by the rest of an
    async function: a rejection of [p] passes through untouched. *)
Fixpoint then_ {A B} (p : promise A) (onFulfilled : A -> promise B) : promise B :=
  match p with
  | Settled (Fulfilled a) => onFulfilled a
  | Settled (Rejected e) => Settled (Rejected e)
  | AwaitFetch url init k => AwaitFetch url init (fun o => then_ (k o) onFulfilled)
  | AwaitJson r k => AwaitJson r (fun o => then_ (k o) onFulfilled)
  end.

(** The request-execution collaborator: calling it starts the request. *)
Definition fetch (url init : val) : M (promise Response) :=
  ret (AwaitFetch url init Settled).

(** [response.json()] *)
Definition response_json (r : Response) : promise val := AwaitJson r Settled.

(** What the platform answers to the calls a promise waits for. *)
Inductive answer : Type :=
  | FetchAnswer (o : outcome Response)
  | JsonAnswer (o : outcome val).

(** [settle p answers]: the outcome of [p] when the platform gives exactly
    the answers listed, in order. *)
Fixpoint settle {A} (p : promise A) (answers : list answer) : option (outcome A) :=
  match p, answers with
  | Settled o, [] => Some o
  | AwaitFetch _ _ k, FetchAnswer o :: rest => settle (k o) rest
  | AwaitJson _ k, JsonAnswer o :: rest => settle (k o) rest
  | _, _ => None
  end.

(** [awaits_json p]: some run of [p] asks the platform to decode a body. *)
Inductive awaits_json {A} : promise A -> Prop :=
  | awaits_json_here r k : awaits_json (AwaitJson r k)
  | awaits_json_after_fetch url init k o :
      awaits_json (k o) -> awaits_json (AwaitFetch url init k)
  | awaits_json_after_json r k o :
      awaits_json (k o) -> awaits_json (AwaitJson r k).

(** ** The fetch helpers of [utils/api/fetcher.ts] *)

(** The exported operations. *)
Inductive operation : Type := GetJSON | PostJSON | DeleteJSON | PutJSON | GetHeaders.

Definition method_of (op : operation) : string :=
  match op with
  | GetJSON => "GET"
  | PostJSON => "POST"
  | DeleteJSON => "DELETE"
  | PutJSON => "PUT"
  | GetHeaders => "HEAD"
  end.

(** The operations that serialize [config.data] into a body. *)
Definition has_body (op : operation) : bool :=
  match op with
  | PostJSON | DeleteJSON | PutJSON => true
  | GetJSON | GetHeaders => false
  end.

Section Fetcher.

(** [apiErrorStatusMessage] of [constants/errors/errors]: the
    status-to-message lookup. *)
Variable apiErrorStatusMessage : Z -> string.

(** The platform's [JSON.stringify]: it reads the heap and yields the text
    (or [undefined]), or throws. *)
Variable JSON_stringify : heap -> val -> completion val.

Definition stringify (v : val) : M val := fun h => (h, JSON_stringify h v).

(** [new ApiError(status, apiErrorStatusMessage(status))] *)
Definition api_error (r : Response) : failure :=
  ApiError (status r) (apiErrorStatusMessage (status r)).

(** Modelled from the spec: [throwIfApiError] of [utils/api/errors/errors]
    is not part of the sources at hand.  On a success response it decodes
    the body and resolves with it (a decode failure propagates as it is);
    otherwise it raises the structured API error built from the numeric
    status and the status-to-message lookup. *)
Definition throwIfApiError (response : Response) : promise val :=
  if ok response then response_json response
  else Settled (Rejected (api_error response)).

Definition withBaseFetchHeaders (headers : val) : M val :=
  object_literal
    [Field "headers"
       (let! defaults :=
          object_literal
            [Field "Accept" (ret (VStr "application/json"));
             Field "Content-Type" (ret (VStr "application/json"))] in
        Object_assign defaults [headers])].

(** [json(url = '', fetchConfig = {})] *)
Definition json (url fetchConfig : val) : M (promise val) :=
  let url := match url with VUndefined => VStr EmptyString | _ => url end in
  let! fetchConfig :=
    match fetchConfig with
    | VUndefined => object_literal []
    | _ => ret fetchConfig
    end in
  let! pending := fetch url fetchConfig in
  ret (then_ pending throwIfApiError).

Definition getJSON (config : val) : M (promise val) :=
  let! fetchConfig :=
    object_literal
      [Spread (let! hs := member config "headers" in withBaseFetchHeaders hs);
       Field "method" (ret (VStr "GET"))] in
  let! url := member config "url" in
  json url fetchConfig.

(** [config.data ? { body: JSON.stringify(config.data) } : {}] *)
Definition requestBody (config : val) : M val :=
  let! data := member config "data" in
  if ToBoolean data then
    object_literal [Field "body" (let! d := member config "data" in stringify d)]
  else object_literal [].

Definition postJSON (config : val) : M (promise val) :=
  let! requestBody := requestBody config in
  let! second :=
    (let! data := member config "data" in
     if ToBoolean data then
       object_literal [Field "body" (let! d := member config "data" in stringify d)]
     else ret data) in
  let! base := (let! hs := member config "headers" in withBaseFetchHeaders hs) in
  let! method := object_literal [Field "method" (ret (VStr "POST"))] in
  let! fetchConfig := Object_assign requestBody [second; base; method] in
  let! url := member config "url" in
  json url fetchConfig.

Definition deleteJSON (config : val) : M (promise val) :=
  let! requestBody := requestBody config in
  let! base := (let! hs := member config "headers" in withBaseFetchHeaders hs) in
  let! method := object_literal [Field "method" (ret (VStr "DELETE"))] in
  let! fetchConfig := Object_assign requestBody [base; method] in
  let! url := member config "url" in
  json url fetchConfig.

Definition putJSON (config : val) : M (promise val) :=
  let! requestBody := requestBody config in
  let! base := (let! hs := member config "headers" in withBaseFetchHeaders hs) in
  let! method := object_literal [Field "method" (ret (VStr "PUT"))] in
  let! fetchConfig := Object_assign requestBody [base; method] in
  let! url := member config "url" in
  json url fetchConfig.

(** An async function: it runs up to its first [await], and what follows
    the [await] continues the awaited promise. *)
Definition getHeaders (config : val) : M (promise val) :=
  let! fetchConfig :=
    object_literal
      [Spread (let! hs := member config "headers" in withBaseFetchHeaders hs);
       Field "method" (ret (VStr "HEAD"))] in
  let! url := member config "url" in
  let! pending := fetch url fetchConfig in
  ret (then_ pending
         (fun response =>
            if ok response then Settled (Fulfilled (headers response))
            else Settled (Rejected (api_error response)))).

Definition perform (op : operation) : val -> M (promise val) :=
  match op with
  | GetJSON => getJSON
  | PostJSON => postJSON
  | DeleteJSON => deleteJSON
  | PutJSON => putJSON
  | GetHeaders => getHeaders
  end.

(** What each operation does with the response, once [fetch] has one. *)
Definition handler_of (op : operation) (r : Response) : promise val :=
  match op with
  | GetHeaders =>
      if ok r then Settled (Fulfilled (headers r))
      else Settled (Rejected (api_error r))
  | _ => throwIfApiError r
  end.

End Fetcher.

(** ** The request handed to [fetch] *)

(** The option bag is read off the heap as it is when [fetch] is called:
    its own keys, its method and body, and the own properties of the object
    its [headers] property refers to. *)
Definition request_prop (h : heap) (init : val) (k : string) : option val :=
  get_prop k (own_props h init).

Definition request_headers (h : heap) (init : val) : props :=
  own_props h (get h init "headers").

Record request : Type :=
  { req_url : val;
    req_keys : list string;
    req_method : option val;
    req_body : option val;
    req_headers : props }.

Definition request_view (h : heap) (url init : val) : request :=
  {| req_url := url;
     req_keys := keys (own_props h init);
     req_method := request_prop h init "method";
     req_body := request_prop h init "body";
     req_headers := request_headers h init |}.

(** The request an operation has issued, if it got as far as [fetch]. *)
Definition issued (res : heap * completion (promise val)) : option request :=
  match res with
  | (h', Normal (AwaitFetch url init _)) => Some (request_view h' url init)
  | _ => None
  end.

Definition erase_method (rq : request) : request :=
  {| req_url := req_url rq;
     req_keys := req_keys rq;
     req_method := None;
     req_body := req_body rq;
     req_headers := req_headers rq |}.

(** A request carries a credentials mode when its option bag has a
    [credentials] (or [credentialsPolicy]) entry. *)
Definition carries_credentials (rq : request) : Prop :=
  "credentials" ∈ req_keys rq \/ "credentialsPolicy" ∈ req_keys rq.

Definition base_headers : props :=
  [("Accept", VStr "application/json");
   ("Content-Type", VStr "application/json")].

(** *** The request as a function of the configuration *)

(** A functional reading of the five operations, which the heap-passing
    code is proved to refine ([perform_request] below): the request is a
    function of the initial heap and the configuration. *)

(** [json] defaults an undefined url to the empty string; [getHeaders]
    passes [config.url] on as it is. *)
Definition url_of (op : operation) (url : val) : val :=
  match op, url with
  | GetHeaders, _ => url
  | _, VUndefined => VStr EmptyString
  | _, _ => url
  end.

Definition merged_headers (h : heap) (config : val) : props :=
  assign_props base_headers (own_props h (get h config "headers")).

Definition expected_request
  (JSON_stringify : heap -> val -> completion val)
  (op : operation) (config : val) (h : heap) : completion request :=
  let data := get h config "data" in
  if has_body op && ToBoolean data then
    match JSON_stringify h data with
    | Normal text =>
        Normal {| req_url := url_of op (get h config "url");
                  req_keys := ["body"; "headers"; "method"];
                  req_method := Some (VStr (method_of op));
                  req_body := Some text;
                  req_headers := merged_headers h config |}
    | Throw e => Throw e
    end
  else
    Normal {| req_url := url_of op (get h config "url");
              req_keys := ["headers"; "method"];
              req_method := Some (VStr (method_of op));
              req_body := None;
              req_headers := merged_headers h config |}.

(** No request is issued when the serializer throws on [config.data]. *)
Definition serializer_threw
  (JSON_stringify : heap -> val -> completion val)
  (op : operation) (config : val) (h : heap) : Prop :=
  has_body op = true /\
  ToBoolean (get h config "data") = true /\
  exists e, JSON_stringify h (get h config "data") = Throw e.

(** ** Heaps without dangling references, and running on an extension *)

Definition closed_at (n : nat) (v : val) : Prop :=
  match v with VRef l => l < n | _ => True end.

(** A value is closed in [h] when it does not refer past the cells of [h]. *)
Definition closed_val (h : heap) (v : val) : Prop := closed_at (length h) v.

Definition closed_cell (n : nat) (c : cell) : Prop :=
  match c with
  | Obj ps => Forall (fun kv => closed_at n kv.2) ps
  | Arr items => Forall (closed_at n) items
  | HeadersObj _ => True
  end.

(** Every reference stored in a cell points to an allocated cell. *)
Definition closed_heap (h : heap) : Prop := Forall (closed_cell (length h)) h.

(** [wp m h cs Q]: started on the heap [h ++ cs], the computation [m] ends
    on a heap [h ++ cs'] (the cells of [h] are as they were) with a
    completion [r] such that [Q cs' r]. *)
Definition wp {A} (m : M A) (h cs : heap) (Q : heap -> completion A -> Prop) : Prop :=
  exists cs' r, m (h ++ cs) = (h ++ cs', r) /\ Q cs' r.

(** ** The platform's JSON object *)

(** [JSON.stringify] and [JSON.parse] after ECMA-262, for integers as
    numbers and strings of 8-bit characters.  A serializer writes its text
    in front of a continuation [k]. *)

Module JSON.

#[local] Unset Elimination Schemes.
Inductive json : Type :=
  | JNull
  | JBool (b : bool)
  | JNum (n : Z)
  | JStr (s : string)
  | JArr (items : list json)
  | JObj (members : list (string * json)).
#[local] Set Elimination Schemes.

Definition DQUOTE : ascii := "034"%char.
Definition BACKSLASH : ascii := "092"%char.

Definition hex_digit (n : nat) : ascii :=
  default "0"%char (String.get n "0123456789abcdef").

Definition hex_value (c : ascii) : option nat :=
  let n := nat_of_ascii c in
  if ((48 <=? n) && (n <=? 57))%nat then Some (n - 48)
  else if ((97 <=? n) && (n <=? 102))%nat then Some (n - 87)
  else if ((65 <=? n) && (n <=? 70))%nat then Some (n - 55)
  else None.

(** QuoteJSONString, one code unit. *)
Definition quote_char (c : ascii) : string :=
  if Ascii.eqb c DQUOTE then String BACKSLASH (String DQUOTE EmptyString)
  else if Ascii.eqb c BACKSLASH then String BACKSLASH (String BACKSLASH EmptyString)
  else if Ascii.eqb c "008" then String BACKSLASH "b"
  else if Ascii.eqb c "009" then String BACKSLASH "t"
  else if Ascii.eqb c "010" then String BACKSLASH "n"
  else if Ascii.eqb c "012" then String BACKSLASH "f"
  else if Ascii.eqb c "013" then String BACKSLASH "r"
  else if (nat_of_ascii c <? 32)%nat then
    String BACKSLASH
      (String "u" (String "0" (String "0"
         (String (hex_digit (nat_of_ascii c / 16))
            (String (hex_digit (nat_of_ascii c mod 16)) EmptyString)))))
  else String c EmptyString.

Fixpoint write_chars (s : string) (k : string) : string :=
  match s with
  | EmptyString => k
  | String c s' => (quote_char c ++ write_chars s' k)%string
  end.

Definition write_string (s : string) (k : string) : string :=
  String DQUOTE (write_chars s (String DQUOTE k)).

Definition write_int (n : Z) (k : string) : string :=
  (NilEmpty.string_of_int (Z.to_int n) ++ k)%string.

(** SerializeJSONProperty without indentation: the text of [j] followed
    by [k]. *)
Fixpoint write (j : json) (k : string) : string :=
  match j with
  | JNull => ("null" ++ k)%string
  | JBool true => ("true" ++ k)%string
  | JBool false => ("false" ++ k)%string
  | JNum n => write_int n k
  | JStr s => write_string s k
  | JArr items =>
      String "["
        ((fix elements (l : list json) (k : string) : string :=
            match l with
            | [] => k
            | [x] => write x k
            | x :: l' => write x (String "," (elements l' k))
            end) items (String "]" k))
  | JObj members =>
      String "{"
        ((fix fields (l : list (string * json)) (k : string) : string :=
            match l with
            | [] => k
            | [(key, x)] => write_string key (String ":" (write x k))
            | (key, x) :: l' =>
                write_string key (String ":" (write x (String "," (fields l' k))))
            end) members (String "}" k))
  end.

Definition text (j : json) : string := write j EmptyString.

(** *** JSON.parse *)

Definition is_ws (c : ascii) : bool :=
  Ascii.eqb c " " || Ascii.eqb c "009" || Ascii.eqb c "010" || Ascii.eqb c "013".

Fixpoint skip_ws (s : string) : string :=
  match s with
  | String c s' => if is_ws c then skip_ws s' else s
  | EmptyString => EmptyString
  end.

Definition cons_char (c : ascii) (r : option (string * string)) : option (string * string) :=
  match r with
  | Some (s, rest) => Some (String c s, rest)
  | None => None
  end.

(** The characters of a string literal after its opening quote. *)
Fixpoint parse_chars (s : string) : option (string * string) :=
  match s with
  | EmptyString => None
  | String c s' =>
      if Ascii.eqb c DQUOTE then Some (EmptyString, s')
      else if Ascii.eqb c BACKSLASH then
        match s' with
        | EmptyString => None
        | String e s'' =>
            if Ascii.eqb e DQUOTE then cons_char DQUOTE (parse_chars s'')
            else if Ascii.eqb e BACKSLASH then cons_char BACKSLASH (parse_chars s'')
            else if Ascii.eqb e "/" then cons_char "/" (parse_chars s'')
            else if Ascii.eqb e "b" then cons_char "008" (parse_chars s'')
            else if Ascii.eqb e "f" then cons_char "012" (parse_chars s'')
            else if Ascii.eqb e "n" then cons_char "010" (parse_chars s'')
            else if Ascii.eqb e "r" then cons_char "013" (parse_chars s'')
            else if Ascii.eqb e "t" then cons_char "009" (parse_chars s'')
            else if Ascii.eqb e "u" then
              match s'' with
              | String h1 (String h2 (String h3 (String h4 s3))) =>
                  match hex_value h1, hex_value h2, hex_value h3, hex_value h4 with
                  | Some a, Some b, Some c, Some d =>
                      let code := ((a * 16 + b) * 16 + c) * 16 + d in
                      if (code <? 256)%nat then
                        cons_char (ascii_of_nat code) (parse_chars s3)
                      else None
                  | _, _, _, _ => None
                  end
              | _ => None
              end
            else None
        end
      else if (nat_of_ascii c <? 32)%nat then None
      else cons_char c (parse_chars s')
  end.

Definition digit_of (c : ascii) : option (Decimal.uint -> Decimal.uint) :=
  if Ascii.eqb c "0" then Some Decimal.D0
  else if Ascii.eqb c "1" then Some Decimal.D1
  else if Ascii.eqb c "2" then Some Decimal.D2
  else if Ascii.eqb c "3" then Some Decimal.D3
  else if Ascii.eqb c "4" then Some Decimal.D4
  else if Ascii.eqb c "5" then Some Decimal.D5
  else if Ascii.eqb c "6" then Some Decimal.D6
  else if Ascii.eqb c "7" then Some Decimal.D7
  else if Ascii.eqb c "8" then Some Decimal.D8
  else if Ascii.eqb c "9" then Some Decimal.D9
  else None.

Fixpoint read_digits (s : string) : Decimal.uint * string :=
  match s with
  | EmptyString => (Decimal.Nil, EmptyString)
  | String c s' =>
      match digit_of c with
      | Some digit => let (d, rest) := read_digits s' in (digit d, rest)
      | None => (Decimal.Nil, s)
      end
  end.

Definition starts_fraction (s : string) : bool :=
  match s with
  | String c _ => Ascii.eqb c "." || Ascii.eqb c "e" || Ascii.eqb c "E"
  | EmptyString => false
  end.

(** An integer literal: digits without a superfluous leading zero, and
    neither fraction nor exponent (numbers are integers here). *)
Definition parse_int (negative : bool) (s : string) : option (json * string) :=
  let (d, rest) := read_digits s in
  match d with
  | Decimal.Nil => None
  | _ =>
      if Decimal.uint_beq (Decimal.unorm d) d && negb (starts_fraction rest) then
        Some (JNum (Z.of_int (if negative then Decimal.Neg d else Decimal.Pos d)), rest)
      else None
  end.

Fixpoint strip_prefix (p s : string) : option string :=
  match p, s with
  | EmptyString, _ => Some s
  | String a p', String b s' => if Ascii.eqb a b then strip_prefix p' s' else None
  | String _ _, EmptyString => None
  end.

Fixpoint set_member (k : string) (v : json) (ms : list (string * json)) : list (string * json) :=
  match ms with
  | [] => [(k, v)]
  | (k', v') :: ms' =>
      if String.eqb k k' then (k, v) :: ms' else (k', v') :: set_member k v ms'
  end.

(** The next token character, after optional white space. *)
Definition next (s : string) : option (ascii * string) :=
  match skip_ws s with
  | String c r => Some (c, r)
  | EmptyString => None
  end.

Definition literal (p : string) (j : json) (s : string) : option (json * string) :=
  match strip_prefix p s with
  | Some r => Some (j, r)
  | None => None
  end.

Fixpoint parse_value (fuel : nat) (s : string) : option (json * string) :=
  match fuel with
  | 0 => None
  | S fuel' =>
      match next s with
      | None => None
      | Some (c, s') =>
          if Ascii.eqb c "n" then literal "ull" JNull s'
          else if Ascii.eqb c "t" then literal "rue" (JBool true) s'
          else if Ascii.eqb c "f" then literal "alse" (JBool false) s'
          else if Ascii.eqb c DQUOTE then
            match parse_chars s' with
            | Some (str, r) => Some (JStr str, r)
            | None => None
            end
          else if Ascii.eqb c "-" then parse_int true s'
          else if Ascii.eqb c "[" then
            match next s' with
            | None => None
            | Some (c', r) =>
                if Ascii.eqb c' "]" then Some (JArr [], r)
                else
                  match parse_elements fuel' s' with
                  | Some (items, r') => Some (JArr items, r')
                  | None => None
                  end
            end
          else if Ascii.eqb c "{" then
            match next s' with
            | None => None
            | Some (c', r) =>
                if Ascii.eqb c' "}" then Some (JObj [], r)
                else
                  match parse_members fuel' [] s' with
                  | Some (ms, r') => Some (JObj ms, r')
                  | None => None
                  end
            end
          else parse_int false (String c s')
      end
  end
with parse_elements (fuel : nat) (s : string) : option (list json * string) :=
  match fuel with
  | 0 => None
  | S fuel' =>
      match parse_value fuel' s with
      | None => None
      | Some (x, r) =>
          match next r with
          | None => None
          | Some (c, r') =>
              if Ascii.eqb c "," then
                match parse_elements fuel' r' with
                | Some (xs, r'') => Some (x :: xs, r'')
                | None => None
                end
              else if Ascii.eqb c "]" then Some ([x], r')
              else None
          end
      end
  end
with parse_members (fuel : nat) (acc : list (string * json)) (s : string)
  : option (list (string * json) * string) :=
  match fuel with
  | 0 => None
  | S fuel' =>
      match next s with
      | None => None
      | Some (c, s1) =>
          if Ascii.eqb c DQUOTE then
            match parse_chars s1 with
            | None => None
            | Some (key, s2) =>
                match next s2 with
                | None => None
                | Some (c2, s3) =>
                    if Ascii.eqb c2 ":" then
                      match parse_value fuel' s3 with
                      | None => None
                      | Some (x, r) =>
                          match next r with
                          | None => None
                          | Some (c3, r') =>
                              if Ascii.eqb c3 "," then
                                parse_members fuel' (set_member key x acc) r'
                              else if Ascii.eqb c3 "}" then
                                Some (set_member key x acc, r')
                              else None
                          end
                      end
                    else None
                end
            end
          else None
      end
  end.

(** [JSON.parse(text)]: one value, surrounded by optional white space. *)
Definition parse (s : string) : option json :=
  match parse_value (S (String.length s)) s with
  | Some (j, rest) =>
      match skip_ws rest with
      | EmptyString => Some j
      | _ => None
      end
  | None => None
  end.

Fixpoint weight (j : json) : nat :=
  match j with
  | JArr items =>
      S ((fix sum (l : list json) : nat :=
            match l with
            | [] => 0
            | x :: l' => S (weight x + sum l')
            end) items)
  | JObj members =>
      S ((fix sum (l : list (string * json)) : nat :=
            match l with
            | [] => 0
            | (_, x) :: l' => S (weight x + sum l')
            end) members)
  | _ => 1
  end.

(** Objects with pairwise distinct keys, at every level. *)
Fixpoint distinct_keys (j : json) : Prop :=
  match j with
  | JArr items =>
      (fix all (l : list json) : Prop :=
         match l with
         | [] => True
         | x :: l' => distinct_keys x /\ all l'
         end) items
  | JObj members =>
      NoDup (map fst members) /\
      (fix all (l : list (string * json)) : Prop :=
         match l with
         | [] => True
         | (_, x) :: l' => distinct_keys x /\ all l'
         end) members
  | _ => True
  end.

(** What may follow a number in a text: no further digit, no fraction
    and no exponent. *)
Definition ends_number (k : string) : bool :=
  match k with
  | EmptyString => true
  | String c _ =>
      match digit_of c with
      | Some _ => false
      | None => negb (starts_fraction k)
      end
  end.

(** *** Named forms of the local loops, for the proofs *)

Fixpoint write_elements (l : list json) (k : string) : string :=
  match l with
  | [] => k
  | [x] => write x k
  | x :: l' => write x (String "," (write_elements l' k))
  end.

Fixpoint write_fields (l : list (string * json)) (k : string) : string :=
  match l with
  | [] => k
  | [(key, x)] => write_string key (String ":" (write x k))
  | (key, x) :: l' =>
      write_string key (String ":" (write x (String "," (write_fields l' k))))
  end.

Fixpoint weights (l : list (string * json)) : nat :=
  match l with
  | [] => 0
  | (_, x) :: l' => S (weight x + weights l')
  end.

Fixpoint weights_list (l : list json) : nat :=
  match l with
  | [] => 0
  | x :: l' => S (weight x + weights_list l')
  end.

Fixpoint all_distinct (l : list json) : Prop :=
  match l with
  | [] => True
  | x :: l' => distinct_keys x /\ all_distinct l'
  end.

Fixpoint all_distinct_members (l : list (string * json)) : Prop :=
  match l with
  | [] => True
  | (_, x) :: l' => distinct_keys x /\ all_distinct_members l'
  end.

Definition is_digit (c : ascii) : bool :=
  match digit_of c with Some _ => true | None => false end.

Definition starts_value (c : ascii) : bool :=
  Ascii.eqb c "n" || Ascii.eqb c "t" || Ascii.eqb c "f" || Ascii.eqb c DQUOTE
  || Ascii.eqb c "-" || Ascii.eqb c "[" || Ascii.eqb c "{" || is_digit c.

Definition reads_back (j : json) : Prop :=
  forall fuel k,
    weight j <= fuel -> ends_number k = true -> distinct_keys j ->
    parse_value fuel (write j k) = Some (j, k).

Definition insert_all (ms acc : list (string * json)) : list (string * json) :=
  fold_left (fun a kv => set_member kv.1 kv.2 a) ms acc.


(** The text of a value is at least as long as the value is heavy, so the
    fuel [parse] starts with suffices. *)
Definition fits (j : json) : Prop :=
  forall k, weight j + String.length k <= String.length (write j k).

(** *** Serializing a value of the heap *)

(** The TypeError [JSON.stringify] throws when the structure is cyclic. *)
Definition cyclic : failure := Raised (VStr "TypeError").

(** A location without a cell; it does not occur in a heap without
    dangling references. *)
Definition dangling : failure := Raised (VStr "ReferenceError").

(** SerializeJSONProperty on the object graph: [None] stands for
    [undefined], which an object omits and an array writes as [null].  A
    [Headers] instance has no own enumerable property and serializes as the
    empty object.  [stack] holds the objects being serialized, as the
    algorithm's own stack does: meeting one of them again is a cycle.  The
    stack never repeats a location, so with more fuel than the heap has
    cells the fuel does not run out ([reify_fuel] below). *)
Fixpoint reify (fuel : nat) (stack : list loc) (h : heap) (v : val)
  : completion (option json) :=
  match v with
  | VUndefined => Normal None
  | VNull => Normal (Some JNull)
  | VBool b => Normal (Some (JBool b))
  | VNum n => Normal (Some (JNum n))
  | VStr s => Normal (Some (JStr s))
  | VRef l =>
      match fuel with
      | 0 => Throw cyclic
      | S fuel' =>
          if decide (l ∈ stack) then Throw cyclic
          else
            match h !! l with
            | None => Throw dangling
            | Some (HeadersObj _) => Normal (Some (JObj []))
            | Some (Arr items) =>
                match
                  (fix elements (vs : list val) : completion (list json) :=
                     match vs with
                     | [] => Normal []
                     | x :: vs' =>
                         match reify fuel' (l :: stack) h x with
                         | Throw e => Throw e
                         | Normal o =>
                             match elements vs' with
                             | Throw e => Throw e
                             | Normal js => Normal (default JNull o :: js)
                             end
                         end
                     end) items
                with
                | Normal js => Normal (Some (JArr js))
                | Throw e => Throw e
                end
            | Some (Obj ps) =>
                match
                  (fix fields (kvs : props) : completion (list (string * json)) :=
                     match kvs with
                     | [] => Normal []
                     | (key, x) :: kvs' =>
                         match reify fuel' (l :: stack) h x with
                         | Throw e => Throw e
                         | Normal o =>
                             match fields kvs' with
                             | Throw e => Throw e
                             | Normal ms =>
                                 Normal (match o with
                                         | Some j => (key, j) :: ms
                                         | None => ms
                                         end)
                             end
                         end
                     end) ps
                with
                | Normal ms => Normal (Some (JObj ms))
                | Throw e => Throw e
                end
            end
      end
  end.

(** [JSON.stringify(v)] *)
Definition stringify (h : heap) (v : val) : completion val :=
  match reify (S (length h)) [] h v with
  | Normal (Some j) => Normal (VStr (text j))
  | Normal None => Normal VUndefined
  | Throw e => Throw e
  end.

End JSON.

(** ** The compliance data type declarations *)

Module ComplianceDataType.

(** Modelled from the spec: the enumerations [Classification],
    [IdLogicalType], [ComplianceFieldIdValue] and [NonIdLogicalType] of
    [wherehows-web/constants] are not part of the sources at hand.  The spec
    describes them as closed sets of string constants; a value of such a
    type is, at run time, one of those strings. *)
Definition Classification : Type := string.
Definition IdLogicalType : Type := string.
Definition ComplianceFieldIdValue : Type := string.
Definition NonIdLogicalType : Type := string.

(** [ComplianceFieldIdValue | NonIdLogicalType] *)
Definition FieldId : Type := string.

(** [IComplianceDataType]; the field the source spells [$URN] is [URN]
    here and keeps its key in the JSON form. *)
Record IComplianceDataType : Type :=
  { pii : bool;
    idType : bool;
    defaultSecurityClassification : Classification;
    title : string;
    URN : string;
    supportedFieldFormats : list IdLogicalType;
    id : FieldId;
    description : option string }.

(** [IComplianceDataTypeResponse] *)
Record IComplianceDataTypeResponse : Type :=
  { complianceDataTypes : option (list IComplianceDataType) }.

(** A record of the interface is, at run time, an object with these
    properties; an absent [description] is no property at all. *)
Definition toJSON (r : IComplianceDataType) : JSON.json :=
  JSON.JObj
    ([("pii", JSON.JBool (pii r));
      ("idType", JSON.JBool (idType r));
      ("defaultSecurityClassification", JSON.JStr (defaultSecurityClassification r));
      ("title", JSON.JStr (title r));
      ("$URN", JSON.JStr (URN r));
      ("supportedFieldFormats", JSON.JArr (map JSON.JStr (supportedFieldFormats r)));
      ("id", JSON.JStr (id r))]
     ++ match description r with
        | Some d => [("description", JSON.JStr d)]
        | None => []
        end).

Fixpoint field (k : string) (ms : list (string * JSON.json)) : option JSON.json :=
  match ms with
  | [] => None
  | (k', j) :: ms' => if String.eqb k k' then Some j else field k ms'
  end.

Definition as_bool (j : JSON.json) : option bool :=
  match j with JSON.JBool b => Some b | _ => None end.

Definition as_string (j : JSON.json) : option string :=
  match j with JSON.JStr s => Some s | _ => None end.

Fixpoint as_strings (l : list JSON.json) : option (list string) :=
  match l with
  | [] => Some []
  | j :: l' =>
      match as_string j, as_strings l' with
      | Some s, Some ss => Some (s :: ss)
      | _, _ => None
      end
  end.

Definition as_string_array (j : JSON.json) : option (list string) :=
  match j with JSON.JArr l => as_strings l | _ => None end.

(** Reading a decoded object at the interface type. *)
Definition fromJSON (j : JSON.json) : option IComplianceDataType :=
  match j with
  | JSON.JObj ms =>
      pii ← field "pii" ms ≫= as_bool;
      idType ← field "idType" ms ≫= as_bool;
      classification ← field "defaultSecurityClassification" ms ≫= as_string;
      title ← field "title" ms ≫= as_string;
      urn ← field "$URN" ms ≫= as_string;
      formats ← field "supportedFieldFormats" ms ≫= as_string_array;
      id ← field "id" ms ≫= as_string;
      description ←
        match field "description" ms with
        | None => Some None
        | Some (JSON.JStr d) => Some (Some d)
        | Some _ => None
        end;
      Some {| pii := pii;
              idType := idType;
              defaultSecurityClassification := classification;
              title := title;
              URN := urn;
              supportedFieldFormats := formats;
              id := id;
              description := description |}
  | _ => None
  end.

(** Serializing a record to JSON text, and decoding a text back. *)
Definition encode (r : IComplianceDataType) : string := JSON.text (toJSON r).

Definition decode (s : string) : option IComplianceDataType :=
  JSON.parse s ≫= fromJSON.

End ComplianceDataType.

(** The response envelope of the compliance data type endpoint. *)
Module ComplianceDataTypeResponse.

Import ComplianceDataType.

(** An absent [complianceDataTypes] is no property at all. *)
Definition toJSON (e : IComplianceDataTypeResponse) : JSON.json :=
  JSON.JObj
    match complianceDataTypes e with
    | Some l => [("complianceDataTypes", JSON.JArr (map ComplianceDataType.toJSON l))]
    | None => []
    end.

Fixpoint records (l : list JSON.json) : option (list IComplianceDataType) :=
  match l with
  | [] => Some []
  | j :: l' =>
      match ComplianceDataType.fromJSON j, records l' with
      | Some r, Some rs => Some (r :: rs)
      | _, _ => None
      end
  end.

(** Reading a decoded object at the interface type. *)
Definition fromJSON (j : JSON.json) : option IComplianceDataTypeResponse :=
  match j with
  | JSON.JObj ms =>
      match field "complianceDataTypes" ms with
      | None => Some {| complianceDataTypes := None |}
      | Some (JSON.JArr l) =>
          match records l with
          | Some rs => Some {| complianceDataTypes := Some rs |}
          | None => None
          end
      | Some _ => None
      end
  | _ => None
  end.

Definition encode (e : IComplianceDataTypeResponse) : string := JSON.text (toJSON e).

Definition decode (s : string) : option IComplianceDataTypeResponse :=
  JSON.parse s ≫= fromJSON.

End ComplianceDataTypeResponse.

(** ** Sample inputs *)

(** A stub for the status-to-message lookup. *)
Definition sample_message (status : Z) : string :=
  if Z.eqb status 404 then "Could not find the requested resource"
  else "An error occurred".

Definition not_found : Response := {| ok := false; status := 404; headers := VNull |}.

(** [{ url, headers: { 'Content-Type': 'text/plain' }, data: { a: 1 } }] *)
Definition sample_heap : heap :=
  [Obj [("url", VStr "/api/v1/list/complianceDataTypes");
        ("headers", VRef 1);
        ("data", VRef 2)];
   Obj [("Content-Type", VStr "text/plain")];
   Obj [("a", VNum 1)]].

(** [{ url }] *)
Definition bare_heap : heap :=
  [Obj [("url", VStr "/api/v1/list/complianceDataTypes")]].

(** [{ url, headers: new Headers({ 'Content-Type': 'text/plain' }) }] *)
Definition headers_instance_heap : heap :=
  [Obj [("url", VStr "/api/v1/list/complianceDataTypes");
        ("headers", VRef 1)];
   HeadersObj [("Content-Type", "text/plain")]].

(** [{ url, credentials: 'include', credentialsPolicy: 'include' }] *)
Definition credentials_heap : heap :=
  [Obj [("url", VStr "/api/v1/list/complianceDataTypes");
        ("credentials", VStr "include");
        ("credentialsPolicy", VStr "include")]].

(** A non-identifier data type: [idType] false, no supported formats. *)
Definition sample_data_type : ComplianceDataType.IComplianceDataType :=
  {| ComplianceDataType.pii := true;
     ComplianceDataType.idType := false;
     ComplianceDataType.defaultSecurityClassification := "CONFIDENTIAL";
     ComplianceDataType.title := "Email address";
     ComplianceDataType.URN := "urn:li:complianceDataType:EMAIL";
     ComplianceDataType.supportedFieldFormats := [];
     ComplianceDataType.id := "EMAIL";
     ComplianceDataType.description := None |}.

(** The property that a credentials mode set on the configuration reaches
    [fetch], at one configuration. *)
Definition credentials_forwarded
  (apiErrorStatusMessage : Z -> string)
  (JSON_stringify : heap -> val -> completion val)
  (config : val) (h : heap) : Prop :=
  forall op mode,
    get h config "credentialsPolicy" = VStr mode ->
    exists rq,
      issued (perform apiErrorStatusMessage JSON_stringify op config h) = Some rq /\
      carries_credentials rq.

(** [{}] *)
Definition empty_config_heap : heap := [Obj []].

(** [{ url, data: null }] *)
Definition null_data_heap : heap :=
  [Obj [("url", VStr "/api/v1/list/complianceDataTypes"); ("data", VNull)]].

(** [{ url, data }] with [data.self === data] *)
Definition cyclic_heap : heap :=
  [Obj [("url", VStr "/api/v1/list/complianceDataTypes"); ("data", VRef 1)];
   Obj [("self", VRef 1)]].

(** Two configurations with the same [url] and [data]; the second also
    sets [method] and [credentials]. *)
Definition two_configs_heap : heap :=
  [Obj [("url", VStr "/api/v1/list/complianceDataTypes"); ("data", VRef 2)];
   Obj [("url", VStr "/api/v1/list/complianceDataTypes"); ("data", VRef 2);
        ("method", VStr "PATCH"); ("credentials", VStr "include")];
   Obj [("a", VNum 1)]].

(** * Part II: properties *)

(** ** Own-property lists *)



Lemma get_prop_None k ps : get_prop k ps = None <-> k ∉ keys ps.
Proof.
  induction ps as [|[k' v'] ps IH]; simpl.
  - split; [intros _; apply not_elem_of_nil | reflexivity].
  - rewrite not_elem_of_cons.
    destruct (String.eqb_spec k k') as [->|Hne]; split.
    + discriminate.
    + intros [? _]; congruence.
    + intros H; split; [assumption | now apply IH].
    + intros [_ H]; now apply IH.
Qed.

Lemma get_prop_Some_elem k v ps : get_prop k ps = Some v -> (k, v) ∈ ps.
Proof.
  induction ps as [|[k' v'] ps IH]; simpl; [discriminate|].
  destruct (String.eqb_spec k k') as [->|_].
  - intros [= ->]. apply elem_of_cons; now left.
  - intros H. apply elem_of_cons; right; auto.
Qed.



Lemma assign_props_nil_r ps : assign_props ps [] = ps.
Proof. reflexivity. Qed.

Lemma assign_props_single ps k v : assign_props ps [(k, v)] = set_prop k v ps.
Proof. unfold assign_props. simpl. now rewrite String.eqb_refl. Qed.

(** A falsy value has no own enumerable property, so it adds nothing as a
    source of [Object.assign]. *)
Lemma falsy_own_props h v : ToBoolean v = false -> own_props h v = [].
Proof.
  destruct v as [| |b|n|s|l]; simpl; try reflexivity; try discriminate.
  destruct s; [reflexivity | discriminate].
Qed.

(** ** Closed heaps *)

Lemma indexed_closed n vs :
  Forall (closed_at n) vs -> Forall (fun kv => closed_at n kv.2) (indexed vs).
Proof.
  unfold indexed. generalize index_key as f. intros f H. revert f.
  induction H as [|v vs Hv _ IH]; intros f; simpl; constructor; auto.
  apply (IH (f ∘ S)).
Qed.

Lemma chars_closed n s : Forall (closed_at n) (chars s).
Proof. induction s; simpl; constructor; simpl; auto. Qed.

Lemma own_props_closed h v :
  closed_heap h -> Forall (fun kv => closed_at (length h) kv.2) (own_props h v).
Proof.
  intros Hh. destruct v; try (now constructor); unfold own_props.
  - apply indexed_closed, chars_closed.
  - destruct (h !! l) as [c|] eqn:E; [|now constructor].
    apply (proj1 (Forall_lookup _ _) Hh) in E.
    destruct c; simpl in *; auto using indexed_closed.
Qed.

(** In a closed heap every property read yields a closed value. *)
Lemma get_closed h v k : closed_heap h -> closed_val h (get h v k).
Proof.
  intros Hh. unfold get, closed_val.
  destruct (get_prop k (own_props h v)) as [v'|] eqn:E; simpl; [|exact I].
  apply get_prop_Some_elem in E.
  apply (proj1 (Forall_forall _ _) (own_props_closed h v Hh)) in E. exact E.
Qed.

Lemma own_props_old h cs v : closed_val h v -> own_props (h ++ cs) v = own_props h v.
Proof.
  destruct v; try reflexivity. unfold closed_val, closed_at, own_props.
  intros Hl. now rewrite lookup_app_l.
Qed.

Lemma get_old h cs v k : closed_val h v -> get (h ++ cs) v k = get h v k.
Proof. intros H. unfold get. now rewrite own_props_old. Qed.

Lemma own_props_new h cs i :
  own_props (h ++ cs) (VRef (length h + i)) = cell_props (cs !! i).
Proof.
  unfold own_props. rewrite lookup_app_r by lia.
  now replace (length h + i - length h) with i by lia.
Qed.

(** ** Symbolic execution of synchronous code *)

Lemma wp_ret {A} (a : A) h cs Q : Q cs (Normal a) -> wp (ret a) h cs Q.
Proof. now exists cs, (Normal a). Qed.

Lemma wp_bind {A B} (m : M A) (f : A -> M B) h cs Q :
  wp m h cs (fun cs1 r1 =>
               match r1 with
               | Normal a => wp (f a) h cs1 Q
               | Throw e => Q cs1 (Throw e)
               end) ->
  wp (bind m f) h cs Q.
Proof.
  intros (cs1 & r1 & Hm & HQ). unfold wp, bind. rewrite Hm.
  destruct r1 as [a|e]; [exact HQ | now exists cs1, (Throw e)].
Qed.

Lemma wp_alloc c h cs Q :
  Q (cs ++ [c]) (Normal (length h + length cs)) -> wp (alloc c) h cs Q.
Proof.
  intros HQ. exists (cs ++ [c]), (Normal (length h + length cs)).
  split; [|exact HQ]. unfold alloc. now rewrite <- app_assoc, length_app.
Qed.

Lemma wp_read {A} (f : heap -> A) h cs Q :
  Q cs (Normal (f (h ++ cs))) -> wp (read f) h cs Q.
Proof. now exists cs, (Normal (f (h ++ cs))). Qed.

Lemma wp_write l f h cs Q :
  Q (alter f l cs) (Normal tt) -> wp (write (length h + l) f) h cs Q.
Proof.
  intros HQ. exists (alter f l cs), (Normal tt). split; [|exact HQ].
  unfold write. now rewrite alter_app_r.
Qed.

Lemma wp_stringify (S : heap -> val -> completion val) v h cs Q :
  Q cs (S (h ++ cs) v) -> wp (stringify S v) h cs Q.
Proof. now exists cs, (S (h ++ cs) v). Qed.

Lemma wp_result {A} (m : M A) h Q :
  wp m h [] Q -> exists cs r, m h = (h ++ cs, r) /\ Q cs r.
Proof. unfold wp. now rewrite app_nil_r. Qed.

Arguments own_props : simpl never.
Arguments get : simpl never.
Arguments assign_props : simpl never.

Ltac head_of t := lazymatch t with ?f _ => head_of f | _ => t end.

Ltac wp_norm :=
  rewrite ?own_props_new; cbn;
  rewrite ?assign_props_single, ?assign_props_nil_r; cbn.

(** One step of symbolic execution; a branch on a value that is not known
    is split. *)
Ltac wp_step :=
  lazymatch goal with
  | |- wp (bind _ _) _ _ _ => apply wp_bind
  | |- wp (ret _) _ _ _ => apply wp_ret; cbv beta iota
  | |- wp (alloc _) _ _ _ => apply wp_alloc; cbv beta iota; cbn [app length]
  | |- wp (read _) _ _ _ => apply wp_read; cbv beta iota
  | |- wp (write _ _) _ _ _ => apply wp_write; cbv beta iota; wp_norm
  | |- wp (stringify _ _) _ _ _ => apply wp_stringify; cbv beta iota
  | |- wp (define_all _ _) _ _ _ => cbn [define_all]
  | |- wp (assign_all _ _) _ _ _ => cbn [assign_all]
  | |- wp (if ?b then _ else _) _ _ _ => destruct b eqn:?
  | |- wp (match ?v with _ => _ end) _ _ _ => destruct v eqn:?
  | |- wp ?m _ _ _ => let hd := head_of m in unfold hd
  | |- match ?r with Normal _ => _ | Throw _ => _ end => destruct r eqn:?
  end.

(** ** The fetch helpers *)

Section FetcherProperties.

Variable apiErrorStatusMessage : Z -> string.
Variable JSON_stringify : heap -> val -> completion val.

Local Abbreviation run := (perform apiErrorStatusMessage JSON_stringify).
Local Abbreviation api_err := (api_error apiErrorStatusMessage).
Local Abbreviation handler := (handler_of apiErrorStatusMessage).
Local Abbreviation expected := (expected_request JSON_stringify).
Local Abbreviation threw := (serializer_threw JSON_stringify).

(** Every operation only appends cells to the heap it is started on. *)
Lemma perform_frame op config h :
  wp (run op config) h [] (fun _ _ => True).
Proof. destruct op; repeat wp_step; exact I. Qed.

(** An operation that completes normally has called [fetch] once, with the
    option bag it has just created, and continues as [handler_of]
    prescribes; it throws only what the serializer throws. *)
Lemma perform_pending op config h :
  wp (run op config) h []
     (fun cs r =>
        match r with
        | Normal p =>
            exists url,
              p = AwaitFetch url (VRef (length h + 0))
                    (fun o => then_ (Settled o) (handler op))
        | Throw e => exists hx v, JSON_stringify hx v = Throw e
        end).
Proof. destruct op; repeat wp_step; eauto. Qed.

Lemma settle_handler op r answers e :
  settle (handler op r) answers = Some (Rejected e) ->
  (answers = [] /\ ok r = false /\ e = api_err r) \/
  (answers = [JsonAnswer (Rejected e)] /\ ok r = true).
Proof.
  unfold handler_of, throwIfApiError, response_json.
  destruct op, (ok r) eqn:Hok; cbn;
    repeat match goal with
           | |- context [match ?l with [] => _ | _ :: _ => _ end] => destruct l
           | |- context [match ?a with FetchAnswer _ => _ | JsonAnswer _ => _ end] =>
               destruct a
           end; cbn; intros [=]; subst; auto.
Qed.


(** C1.  When [fetch] yields a response whose success flag is false, each
    of the five operations fails with the structured API error made of the
    response's status and the looked-up message for that status.  This is
    the only failure the layer makes itself: any other rejection is the
    very value [fetch] or the body decoding rejected with, and a
    synchronous throw is the serializer's. *)
Theorem failure_status_raises_api_error op config h h' r :
  run op config h = (h', r) ->
  match r with
  | Normal p =>
      (forall resp,
          ok resp = false ->
          settle p [FetchAnswer (Fulfilled resp)] =
          Some (Rejected (ApiError (status resp)
                                   (apiErrorStatusMessage (status resp)))))
      /\
      (forall answers e,
          settle p answers = Some (Rejected e) ->
          (exists resp,
              answers = [FetchAnswer (Fulfilled resp)] /\
              ok resp = false /\
              e = ApiError (status resp) (apiErrorStatusMessage (status resp)))
          \/ answers = [FetchAnswer (Rejected e)]
          \/ (exists resp,
                 answers = [FetchAnswer (Fulfilled resp); JsonAnswer (Rejected e)] /\
                 ok resp = true))
  | Throw e => exists hx v, JSON_stringify hx v = Throw e
  end.
Proof.
  intros Hrun.
  destruct (wp_result _ _ _ (perform_pending op config h)) as (cs & r0 & E & HQ).
  rewrite E in Hrun. injection Hrun as _ <-.
  destruct r0 as [p|e]; [|exact HQ]. destruct HQ as (url & ->). split.
  - intros resp Hok. cbn.
    destruct op; cbn; unfold throwIfApiError; rewrite Hok; reflexivity.
  - intros answers e Hs.
    destruct answers as [|[[resp|e0]|o] rest]; cbn in Hs; try discriminate.
    + apply settle_handler in Hs as [(-> & Hok & ->)|(-> & Hok)];
        unfold api_error; eauto 6.
    + destruct rest; [|discriminate]. injection Hs as ->. auto.
Qed.

(** On a success response the four JSON operations resolve with whatever
    the body decodes to, and reject with the decoder's own failure. *)
Lemma success_settles_with_decoded_body op config h h' p resp o :
  op <> GetHeaders ->
  run op config h = (h', Normal p) ->
  ok resp = true ->
  settle p [FetchAnswer (Fulfilled resp); JsonAnswer o] = Some o.
Proof.
  intros Hop Hrun Hok.
  destruct (wp_result _ _ _ (perform_pending op config h)) as (cs & r0 & E & HQ).
  rewrite E in Hrun. injection Hrun as _ ->.
  destruct HQ as (url & ->).
  destruct op; try congruence; cbn; unfold throwIfApiError; rewrite Hok;
    reflexivity.
Qed.

(** C6.  When [fetch] itself rejects, each of the five operations rejects
    with exactly that value: the continuation after [fetch] is not entered
    and nothing is wrapped. *)
Theorem transport_failure_propagates op config h h' p e :
  run op config h = (h', Normal p) ->
  settle p [FetchAnswer (Rejected e)] = Some (Rejected e) /\
  exists url init k, p = AwaitFetch url init k /\ k (Rejected e) = Settled (Rejected e).
Proof.
  intros Hrun.
  destruct (wp_result _ _ _ (perform_pending op config h)) as (cs & r0 & E & HQ).
  rewrite E in Hrun. injection Hrun as _ ->.
  destruct HQ as (url & ->). split; [reflexivity|]. eauto.
Qed.

Lemma getHeaders_request config h :
  wp (getHeaders apiErrorStatusMessage config) h []
     (fun cs r =>
        exists url,
          r = Normal (AwaitFetch url (VRef (length h + 0))
                        (fun o => then_ (Settled o) (handler GetHeaders))) /\
          request_prop (h ++ cs) (VRef (length h + 0)) "method" = Some (VStr "HEAD")).
Proof.
  repeat wp_step. eexists. split; [reflexivity|].
  unfold request_prop. rewrite own_props_new. reflexivity.
Qed.

(** C4.  [getHeaders] issues a HEAD request; on a success response it
    resolves with the response's header collection, on any other response
    it rejects with the structured API error; in no run does it ask for the
    body to be decoded. *)
Theorem getHeaders_resolves_with_response_headers config h :
  exists h' url init k,
    getHeaders apiErrorStatusMessage config h = (h', Normal (AwaitFetch url init k)) /\
    request_prop h' init "method" = Some (VStr "HEAD") /\
    (forall resp,
        k (Fulfilled resp) =
        Settled (if ok resp then Fulfilled (headers resp)
                 else Rejected (ApiError (status resp)
                                         (apiErrorStatusMessage (status resp))))) /\
    ~ awaits_json (AwaitFetch url init k).
Proof.
  destruct (wp_result _ _ _ (getHeaders_request config h))
    as (cs & r & E & url & -> & Hm).
  eexists _, _, _, _. split; [exact E|]. split; [exact Hm|]. split.
  - intros resp. cbn. now destruct (ok resp).
  - intros Hj. inversion Hj as [| ? ? ? o Ho |]; subst.
    destruct o as [resp|e]; cbn in Ho; [destruct (ok resp)|]; inversion Ho.
Qed.

(** C10.  An operation leaves every cell of the heap it was started on as
    it was: it only appends the objects it creates.  In particular the
    configuration object, and the objects its [headers] and [data] refer
    to, are unchanged, and so is every field read from the configuration. *)
Theorem configuration_left_unchanged op config h :
  exists cs r,
    run op config h = (h ++ cs, r) /\
    (forall l c, h !! l = Some c -> (h ++ cs) !! l = Some c) /\
    (closed_val h config ->
     forall k, get (h ++ cs) config k = get h config k).
Proof.
  destruct (wp_result _ _ _ (perform_frame op config h)) as (cs & r & E & _).
  exists cs, r. split; [exact E|]. split.
  - intros l c Hl. now apply lookup_app_l_Some.
  - intros Hc k. now apply get_old.
Qed.


(** *** What reaches [fetch], for any serializer *)

Ltac wp_old :=
  rewrite ?app_nil_r, ?get_old by assumption;
  repeat match goal with
         | H : ToBoolean ?v = false |- context [own_props ?h ?v] =>
             rewrite (falsy_own_props h v H), ?assign_props_nil_r
         end.

Ltac wp_branch_old :=
  match goal with
  | H : ?b = _ |- wp (if ?b then _ else _) _ _ _ => rewrite H
  | _ => wp_step
  end.

Lemma perform_url op config h :
  closed_val h config ->
  wp (run op config) h []
     (fun cs r =>
        match r with
        | Normal p =>
            exists init k, p = AwaitFetch (url_of op (get h config "url")) init k
        | Throw _ => True
        end).
Proof.
  intros Hc. destruct op; repeat (wp_step; wp_old); try exact I.
  all: eexists _, _; unfold url_of; destruct (get h config "url"); reflexivity.
Qed.

(** X1.  The url handed to [fetch].  The four JSON operations go through
    [json], whose parameter defaults an undefined url to the empty string;
    [getHeaders] calls [fetch] itself and passes [config.url] on as it is,
    undefined included. *)
Theorem url_is_forwarded op config h h' p :
  closed_val h config ->
  run op config h = (h', Normal p) ->
  exists init k, p = AwaitFetch (url_of op (get h config "url")) init k.
Proof.
  intros Hc Hrun.
  destruct (wp_result _ _ _ (perform_url op config h Hc)) as (cs & r & E & HQ).
  rewrite E in Hrun. injection Hrun as _ ->. exact HQ.
Qed.

Lemma retrieval_request op config h :
  has_body op = false ->
  wp (run op config) h []
     (fun cs r =>
        exists url k,
          r = Normal (AwaitFetch url (VRef (length h + 0)) k) /\
          keys (own_props (h ++ cs) (VRef (length h + 0))) = ["headers"; "method"] /\
          request_prop (h ++ cs) (VRef (length h + 0)) "method"
            = Some (VStr (method_of op))).
Proof.
  intros Hop. destruct op; try discriminate; repeat wp_step.
  all: eexists _, _; split; [reflexivity|].
  all: unfold request_prop; rewrite own_props_new; split; reflexivity.
Qed.

(** X7.  [getJSON] and [getHeaders] never look at [config.data]: whatever the
    configuration holds, they do not call the serializer, cannot throw, and
    always reach [fetch], with an option bag made of [headers] and [method]
    only. *)
Theorem retrieval_always_issues op config h :
  has_body op = false ->
  exists h' url init k,
    run op config h = (h', Normal (AwaitFetch url init k)) /\
    keys (own_props h' init) = ["headers"; "method"] /\
    request_prop h' init "body" = None /\
    request_prop h' init "method" = Some (VStr (method_of op)).
Proof.
  intros Hop.
  destruct (wp_result _ _ _ (retrieval_request op config h Hop))
    as (cs & r & E & url & k & -> & Hk & Hm).
  eexists _, _, _, _. split; [exact E|]. split; [exact Hk|]. split; [|exact Hm].
  unfold request_prop. apply get_prop_None. rewrite Hk.
  rewrite !not_elem_of_cons. repeat split; try discriminate.
  apply not_elem_of_nil.
Qed.

Lemma perform_fresh op config h :
  closed_val h config ->
  wp (run op config) h []
     (fun cs r =>
        match r with
        | Normal p =>
            exists url k i,
              p = AwaitFetch url (VRef (length h + 0)) k /\
              get (h ++ cs) (VRef (length h + 0)) "headers" = VRef (length h + i) /\
              exists ps, cs !! i = Some (Obj ps)
        | Throw _ => True
        end).
Proof.
  intros Hc. destruct op; repeat (wp_branch_old; wp_old); try exact I.
  all: eexists _, _, _; split; [reflexivity|].
  all: unfold get; rewrite own_props_new; cbn; split; [reflexivity|].
  all: cbn; eauto.
Qed.

(** X8.  What [fetch] receives is never one of the caller's objects: the option
    bag is an object the call has created, and so is the object its
    [headers] property refers to, which is an ordinary object even when the
    caller supplied a [Headers] instance. *)
Theorem request_objects_are_fresh op config h h' url init k :
  closed_val h config ->
  run op config h = (h', Normal (AwaitFetch url init k)) ->
  exists l l' ps,
    init = VRef l /\ length h <= l /\
    get h' init "headers" = VRef l' /\ length h <= l' /\
    h' !! l' = Some (Obj ps).
Proof.
  intros Hc Hrun.
  destruct (wp_result _ _ _ (perform_fresh op config h Hc)) as (cs & r & E & HQ).
  rewrite E in Hrun. injection Hrun as <- ->.
  destruct HQ as (url' & k' & i & Hp & Hg & ps & Hi).
  injection Hp as _ -> _.
  exists (length h + 0), (length h + i), ps.
  repeat split; try lia; [exact Hg|].
  rewrite lookup_app_r by lia.
  now replace (length h + i - length h) with i by lia.
Qed.
(** The platform's serializer reads only what its argument reaches: on a
    heap without dangling references, cells allocated later do not change
    its result. *)
Hypothesis JSON_stringify_frame :
  forall h cs v,
    closed_heap h -> closed_val h v ->
    JSON_stringify (h ++ cs) v = JSON_stringify h v.

Ltac wp_known :=
  rewrite ?app_nil_r, ?get_old, ?own_props_old, ?JSON_stringify_frame
    by (assumption || (apply get_closed; assumption));
  repeat match goal with
         | H : ToBoolean ?v = false |- context [own_props ?h ?v] =>
             rewrite (falsy_own_props h v H), ?assign_props_nil_r
         end.

Ltac wp_branch :=
  match goal with
  | H : ?b = _ |- wp (if ?b then _ else _) _ _ _ => rewrite H
  | H : ?r = _ |- match ?r with Normal _ => _ | Throw _ => _ end => rewrite H
  | _ => wp_step
  end.

Ltac wp_leaf :=
  do 3 eexists; split; [reflexivity|];
  rewrite ?assign_props_nil_r;
  unfold request_view, request_prop, request_headers, merged_headers,
    base_headers, get;
  rewrite ?own_props_new; cbn; rewrite ?own_props_new; cbn; reflexivity.

(** The heap-manipulating code refines [expected_request]: on a closed
    heap, an operation issues exactly the request that function describes,
    or throws what the serializer throws. *)
Lemma perform_request op config h :
  closed_heap h -> closed_val h config ->
  wp (run op config) h []
     (fun cs r =>
        match r, expected op config h with
        | Normal p, Normal rq =>
            exists url init k,
              p = AwaitFetch url init k /\
              request_view (h ++ cs) url init = rq
        | Throw e, Throw e' => e = e'
        | _, _ => False
        end).
Proof.
  intros Hh Hc. unfold expected_request.
  destruct op; cbn [has_body andb url_of method_of].
  all: repeat (wp_branch; wp_known).
  all: try wp_leaf.
  all: reflexivity.
Qed.

Lemma issued_expected op config h :
  closed_heap h -> closed_val h config ->
  issued (run op config h) =
  match expected op config h with
  | Normal rq => Some rq
  | Throw _ => None
  end.
Proof.
  intros Hh Hc.
  destruct (wp_result _ _ _ (perform_request op config h Hh Hc))
    as (cs & r & -> & HQ).
  destruct r as [p|e], (expected op config h) as [rq|e'];
    try contradiction; [|reflexivity].
  destruct HQ as (url & init & k & -> & <-). reflexivity.
Qed.

Lemma issued_or_threw op config h :
  closed_heap h -> closed_val h config ->
  match issued (run op config h) with
  | Some rq => expected op config h = Normal rq
  | None => threw op config h
  end.
Proof.
  intros Hh Hc. rewrite issued_expected by assumption.
  unfold expected_request, serializer_threw.
  destruct (has_body op), (ToBoolean (get h config "data")); cbn;
    try reflexivity.
  destruct (JSON_stringify h (get h config "data")); eauto.
Qed.


(** C9.  When [config.headers] is a [Headers] instance, the headers issued
    with the request are exactly the two defaults: the instance has no own
    enumerable property, so none of its entries is copied. *)
Theorem headers_instance_not_merged op config h l entries :
  closed_heap h -> closed_val h config ->
  get h config "headers" = VRef l ->
  h !! l = Some (HeadersObj entries) ->
  match issued (run op config h) with
  | Some rq => req_headers rq = base_headers
  | None => threw op config h
  end.
Proof.
  intros Hh Hc Hhs Hl. pose proof (issued_or_threw op config h Hh Hc) as H.
  destruct (issued (run op config h)) as [rq|]; [|exact H].
  unfold expected_request in H.
  assert (req_headers rq = merged_headers h config) as ->.
  { destruct (has_body op && ToBoolean (get h config "data"));
      [destruct (JSON_stringify h (get h config "data"))|];
      inversion H; reflexivity. }
  unfold merged_headers, own_props. rewrite Hhs, Hl. reflexivity.
Qed.

(** C5, as amended.  No operation forwards a credentials mode: whatever
    the configuration object contains, the option bag handed to [fetch] has
    the keys [headers] and [method], preceded by [body] when there is one,
    and nothing else. *)
Theorem request_has_no_credentials op config h :
  closed_heap h -> closed_val h config ->
  match issued (run op config h) with
  | Some rq =>
      (req_keys rq = ["headers"; "method"] \/
       req_keys rq = ["body"; "headers"; "method"]) /\
      ~ carries_credentials rq
  | None => threw op config h
  end.
Proof.
  intros Hh Hc. pose proof (issued_or_threw op config h Hh Hc) as H.
  destruct (issued (run op config h)) as [rq|]; [|exact H].
  unfold expected_request in H.
  assert (req_keys rq = ["headers"; "method"] \/
          req_keys rq = ["body"; "headers"; "method"]) as Hk.
  { destruct (has_body op && ToBoolean (get h config "data"));
      [destruct (JSON_stringify h (get h config "data"))|];
      inversion H; auto. }
  split; [exact Hk|]. unfold carries_credentials.
  destruct Hk as [-> | ->]; rewrite !elem_of_cons, !elem_of_nil;
    intros [H1|H1]; repeat destruct H1 as [H1|H1]; discriminate || contradiction.
Qed.

(** C3.  For POST, DELETE and PUT alike: without [data] the request has no
    [body] entry at all, and with a [data] object the body is the text the
    serializer yields for it. *)
Theorem body_is_serialized_data op config h :
  has_body op = true ->
  closed_heap h -> closed_val h config ->
  (get h config "data" = VUndefined ->
   exists rq,
     issued (run op config h) = Some rq /\
     req_body rq = None /\ "body" ∉ req_keys rq) /\
  (forall d text,
      get h config "data" = VRef d ->
      JSON_stringify h (VRef d) = Normal text ->
      exists rq,
        issued (run op config h) = Some rq /\ req_body rq = Some text).
Proof.
  intros Hop Hh Hc. split.
  - intros Hd. rewrite issued_expected by assumption.
    unfold expected_request. rewrite Hop, Hd. cbn.
    eexists. split; [reflexivity|]. split; [reflexivity|]. cbn.
    rewrite !not_elem_of_cons. repeat split; try discriminate.
    apply not_elem_of_nil.
  - intros d text Hd Hs. rewrite issued_expected by assumption.
    unfold expected_request. rewrite Hop, Hd. cbn. rewrite Hs.
    eexists. split; reflexivity.
Qed.

(** C8.  For the same configuration, [postJSON], [putJSON] and
    [deleteJSON] hand [fetch] the same request but for the method: the
    second body source of [postJSON] changes neither body nor headers. *)
Theorem post_put_delete_differ_in_method_only config h :
  closed_heap h -> closed_val h config ->
  erase_method <$> issued (run PostJSON config h) =
    erase_method <$> issued (run PutJSON config h) /\
  erase_method <$> issued (run PostJSON config h) =
    erase_method <$> issued (run DeleteJSON config h) /\
  (forall op rq,
      has_body op = true ->
      issued (run op config h) = Some rq ->
      req_method rq = Some (VStr (method_of op))).
Proof.
  intros Hh Hc. rewrite !issued_expected by assumption.
  unfold expected_request. cbn [has_body andb url_of method_of].
  repeat split.
  - destruct (ToBoolean (get h config "data"));
      [destruct (JSON_stringify h (get h config "data"))|]; reflexivity.
  - destruct (ToBoolean (get h config "data"));
      [destruct (JSON_stringify h (get h config "data"))|]; reflexivity.
  - intros op rq Hop. rewrite issued_expected by assumption.
    unfold expected_request. rewrite Hop. cbn.
    destruct (ToBoolean (get h config "data"));
      [destruct (JSON_stringify h (get h config "data"))|];
      intros [= <-]; reflexivity.
Qed.


(** *** Further properties of the issued request *)

(** X2.  An operation reads three fields of its configuration and nothing else:
    two configuration objects that agree on [url], [headers] and [data]
    make it issue the same request, whatever else they contain. *)
Theorem only_url_headers_data_matter op config config' h :
  closed_heap h -> closed_val h config -> closed_val h config' ->
  get h config "url" = get h config' "url" ->
  get h config "headers" = get h config' "headers" ->
  get h config "data" = get h config' "data" ->
  issued (run op config h) = issued (run op config' h).
Proof.
  intros Hh Hc Hc' Hu Hhs Hd. rewrite !issued_expected by assumption.
  unfold expected_request, merged_headers. now rewrite Hu, Hhs, Hd.
Qed.

(** X4.  Without [headers] on the configuration (absent or null) the request
    carries exactly the two defaults, in this order. *)
Theorem absent_headers_give_defaults op config h :
  closed_heap h -> closed_val h config ->
  get h config "headers" = VUndefined \/ get h config "headers" = VNull ->
  match issued (run op config h) with
  | Some rq =>
      req_headers rq =
      [("Accept", VStr "application/json");
       ("Content-Type", VStr "application/json")]
  | None => threw op config h
  end.
Proof.
  intros Hh Hc Hhs. pose proof (issued_or_threw op config h Hh Hc) as H.
  destruct (issued (run op config h)) as [rq|]; [|exact H].
  unfold expected_request in H.
  assert (req_headers rq = merged_headers h config) as ->.
  { destruct (has_body op && ToBoolean (get h config "data"));
      [destruct (JSON_stringify h (get h config "data"))|];
      inversion H; reflexivity. }
  unfold merged_headers. destruct Hhs as [-> | ->]; reflexivity.
Qed.

(** X5.  Whether POST, DELETE and PUT send a body is decided by the truthiness
    of [config.data], as the conditional in the source tests it: a falsy
    value (undefined, null, false, 0, the empty string) sends no body at
    all, and every truthy value is serialized into the body. *)
Theorem body_follows_truthiness op config h :
  has_body op = true ->
  closed_heap h -> closed_val h config ->
  (ToBoolean (get h config "data") = false ->
   exists rq,
     issued (run op config h) = Some rq /\
     req_body rq = None /\ req_keys rq = ["headers"; "method"]) /\
  (forall text,
      ToBoolean (get h config "data") = true ->
      JSON_stringify h (get h config "data") = Normal text ->
      exists rq,
        issued (run op config h) = Some rq /\
        req_body rq = Some text /\ req_keys rq = ["body"; "headers"; "method"]).
Proof.
  intros Hop Hh Hc. split.
  - intros Hd. rewrite issued_expected by assumption.
    unfold expected_request. rewrite Hop, Hd. cbn. eauto.
  - intros text Hd Hs. rewrite issued_expected by assumption.
    unfold expected_request. rewrite Hop, Hd. cbn. rewrite Hs. eauto.
Qed.

(** X6.  When the serializer throws on [config.data], POST, DELETE and PUT throw
    that very failure synchronously: no promise is returned and [fetch] is
    not called; the cells of the initial heap are as they were. *)
Theorem serializer_failure_is_thrown op config h e :
  has_body op = true ->
  closed_heap h -> closed_val h config ->
  ToBoolean (get h config "data") = true ->
  JSON_stringify h (get h config "data") = Throw e ->
  exists cs, run op config h = (h ++ cs, Throw e).
Proof.
  intros Hop Hh Hc Hd Hs.
  destruct (wp_result _ _ _ (perform_request op config h Hh Hc))
    as (cs & r & E & HQ).
  unfold expected_request in HQ. rewrite Hop, Hd in HQ. cbn in HQ.
  rewrite Hs in HQ. destruct r as [p|e']; [contradiction|]. subst e'.
  now exists cs.
Qed.

(** *** Calling again *)

(** [JSON.stringify] returns a string or [undefined]. *)
Hypothesis JSON_stringify_text :
  forall h v r,
    JSON_stringify h v = Normal r -> r = VUndefined \/ exists s, r = VStr s.

Lemma closed_at_mono n m v : n <= m -> closed_at n v -> closed_at m v.
Proof. destruct v; cbn; auto. lia. Qed.

Lemma closed_cell_mono n m c : n <= m -> closed_cell n c -> closed_cell m c.
Proof.
  intros Hnm. destruct c; cbn; auto;
    intros H; (eapply Forall_impl; [exact H|]);
    intros; eapply closed_at_mono; eauto.
Qed.

Lemma set_prop_closed n k v ps :
  closed_at n v ->
  Forall (fun kv => closed_at n kv.2) ps ->
  Forall (fun kv => closed_at n kv.2) (set_prop k v ps).
Proof.
  intros Hv. induction 1 as [|[k' v'] ps Hx Hps IH]; cbn.
  - constructor; [exact Hv | constructor].
  - destruct (String.eqb k k'); constructor; assumption.
Qed.

Lemma assign_props_closed n target source :
  Forall (fun kv => closed_at n kv.2) target ->
  Forall (fun kv => closed_at n kv.2) source ->
  Forall (fun kv => closed_at n kv.2) (assign_props target source).
Proof.
  intros Ht Hs. unfold assign_props. revert target Ht.
  induction (keys source) as [|k ks IH]; intros target Ht; cbn; [exact Ht|].
  apply IH, set_prop_closed; [|exact Ht].
  destruct (get_prop k source) as [v|] eqn:E; cbn; [|exact I].
  apply get_prop_Some_elem in E.
  exact (proj1 (Forall_forall _ _) Hs _ E).
Qed.

Lemma stringify_result_closed h v r n :
  JSON_stringify h v = Normal r -> closed_at n r.
Proof.
  intros H. destruct (JSON_stringify_text h v r H) as [-> | (s & ->)]; exact I.
Qed.

Ltac closed_cells :=
  repeat match goal with
         | |- Forall _ [] => constructor
         | |- Forall _ (_ :: _) => constructor
         | |- closed_cell _ (Obj (assign_props _ _)) =>
             cbn [closed_cell]; apply assign_props_closed
         | |- closed_cell _ (Obj _) => cbn [closed_cell]
         | |- closed_at _ (_, _).2 => cbn [snd]
         | |- closed_at _ (VStr _) => exact I
         | |- closed_at _ (VRef _) => cbn; lia
         | H : JSON_stringify _ _ = Normal ?a |- closed_at _ ?a =>
             exact (stringify_result_closed _ _ _ _ H)
         | |- Forall _ (own_props ?h ?v) =>
             eapply Forall_impl;
             [apply own_props_closed; assumption
             |cbn; intros; eapply closed_at_mono; [|eassumption]; lia]
         end.

Lemma perform_closed op config h :
  closed_heap h -> closed_val h config ->
  wp (run op config) h []
     (fun cs _ => Forall (closed_cell (length h + length cs)) cs).
Proof.
  intros Hh Hc.
  destruct op; repeat (wp_branch; wp_known); cbn [length]; closed_cells.
Qed.

(** An operation keeps the heap free of dangling references: the objects
    it creates refer to allocated cells only. *)
Theorem operations_keep_heap_closed op config h :
  closed_heap h -> closed_val h config ->
  closed_heap (run op config h).1.
Proof.
  intros Hh Hc.
  destruct (wp_result _ _ _ (perform_closed op config h Hh Hc))
    as (cs & r & E & Hcs).
  rewrite E. cbn [fst]. unfold closed_heap. rewrite length_app.
  apply Forall_app. split; [|exact Hcs].
  eapply Forall_impl; [exact Hh|].
  intros c. apply closed_cell_mono. lia.
Qed.

(** X9.  A configuration object can be used again: after any operation has run
    on it, an operation issues the same request as it would have issued
    before. *)
Theorem second_call_issues_same_request op op' config h :
  closed_heap h -> closed_val h config ->
  issued (run op' config (run op config h).1) = issued (run op' config h).
Proof.
  intros Hh Hc.
  pose proof (operations_keep_heap_closed op config h Hh Hc) as Hh'.
  destruct (wp_result _ _ _ (perform_frame op config h)) as (cs & r & E & _).
  rewrite E in *. cbn [fst] in *.
  assert (closed_val (h ++ cs) config) as Hc'.
  { unfold closed_val in *. eapply closed_at_mono; [|exact Hc].
    rewrite length_app. lia. }
  rewrite !issued_expected by assumption.
  unfold expected_request, merged_headers.
  rewrite !get_old, own_props_old, JSON_stringify_frame
    by (assumption || (apply get_closed; assumption)).
  reflexivity.
Qed.

End FetcherProperties.

(** ** The JSON codec *)

Module JSONFacts.

Import JSON.

(** *** String literals *)

Lemma parse_chars_unfold c s' :
  parse_chars (String c s') =
      if Ascii.eqb c DQUOTE then Some (EmptyString, s')
      else if Ascii.eqb c BACKSLASH then
        match s' with
        | EmptyString => None
        | String e s'' =>
            if Ascii.eqb e DQUOTE then cons_char DQUOTE (parse_chars s'')
            else if Ascii.eqb e BACKSLASH then cons_char BACKSLASH (parse_chars s'')
            else if Ascii.eqb e "/" then cons_char "/" (parse_chars s'')
            else if Ascii.eqb e "b" then cons_char "008" (parse_chars s'')
            else if Ascii.eqb e "f" then cons_char "012" (parse_chars s'')
            else if Ascii.eqb e "n" then cons_char "010" (parse_chars s'')
            else if Ascii.eqb e "r" then cons_char "013" (parse_chars s'')
            else if Ascii.eqb e "t" then cons_char "009" (parse_chars s'')
            else if Ascii.eqb e "u" then
              match s'' with
              | String h1 (String h2 (String h3 (String h4 s3))) =>
                  match hex_value h1, hex_value h2, hex_value h3, hex_value h4 with
                  | Some a, Some b, Some c, Some d =>
                      let code := ((a * 16 + b) * 16 + c) * 16 + d in
                      if (code <? 256)%nat then
                        cons_char (ascii_of_nat code) (parse_chars s3)
                      else None
                  | _, _, _, _ => None
                  end
              | _ => None
              end
            else None
        end
      else if (nat_of_ascii c <? 32)%nat then None
      else cons_char c (parse_chars s').
Proof. reflexivity. Qed.

Lemma parse_quote_char c rest :
  parse_chars (quote_char c ++ rest) = cons_char c (parse_chars rest).
Proof.
  destruct c as [[] [] [] [] [] [] [] []];
    match goal with
    | |- context [quote_char ?c] =>
        let q := eval vm_compute in (quote_char c) in
        change (quote_char c) with q
    end;
    cbv [String.append]; rewrite parse_chars_unfold; cbv -[parse_chars]; reflexivity.
Qed.

Lemma parse_chars_write s k :
  parse_chars (write_chars s (String DQUOTE k)) = Some (s, k).
Proof.
  induction s as [|c s IH]; [reflexivity|].
  cbn [write_chars]. now rewrite parse_quote_char, IH.
Qed.


Lemma write_arr items k :
  write (JArr items) k = String "[" (write_elements items (String "]" k)).
Proof. reflexivity. Qed.

Lemma write_obj ms k :
  write (JObj ms) k = String "{" (write_fields ms (String "}" k)).
Proof. reflexivity. Qed.

Lemma weight_arr items : weight (JArr items) = S (weights_list items).
Proof. reflexivity. Qed.

Lemma weight_obj ms : weight (JObj ms) = S (weights ms).
Proof. reflexivity. Qed.

Lemma distinct_arr items : distinct_keys (JArr items) = all_distinct items.
Proof. reflexivity. Qed.

Lemma distinct_obj ms :
  distinct_keys (JObj ms) = (NoDup (map fst ms) /\ all_distinct_members ms).
Proof. reflexivity. Qed.

Lemma json_induction (P : json -> Prop) :
  P JNull -> (forall b, P (JBool b)) -> (forall n, P (JNum n)) ->
  (forall s, P (JStr s)) ->
  (forall items, Forall P items -> P (JArr items)) ->
  (forall ms, Forall (fun kv => P kv.2) ms -> P (JObj ms)) ->
  forall j, P j.
Proof.
  intros Hnull Hbool Hnum Hstr Harr Hobj.
  fix IH 1. intros [| b | n | s | items | ms].
  - exact Hnull.
  - apply Hbool.
  - apply Hnum.
  - apply Hstr.
  - apply Harr. induction items as [|x items IHl]; constructor.
    + apply IH.
    + exact IHl.
  - apply Hobj. induction ms as [|[k x] ms IHl]; constructor.
    + apply IH.
    + exact IHl.
Qed.

(** *** Heads of texts *)

Lemma starts_value_facts c :
  starts_value c = true ->
  is_ws c = false /\ Ascii.eqb c "]" = false /\ Ascii.eqb c "}" = false.
Proof.
  destruct c as [[] [] [] [] [] [] [] []]; cbv; intros H;
    try discriminate H; auto.
Qed.

Lemma uint_head d k :
  d <> Decimal.Nil ->
  exists c s, (NilEmpty.string_of_uint d +:+ k) = String c s /\ is_digit c = true.
Proof. destruct d; intros H; try congruence; cbn; eauto. Qed.

Lemma write_head j k :
  exists c s, write j k = String c s /\ starts_value c = true.
Proof.
  destruct j as [| [] | n | s | items | ms]; cbn; eauto.
  - unfold write_int. destruct n as [|p|p]; cbn; eauto.
    destruct (uint_head (Pos.to_uint p) k (Unsigned.to_uint_nonnil p))
      as (c & s & -> & Hc).
    exists c, s. split; [reflexivity|]. unfold starts_value. rewrite Hc.
    now rewrite !orb_true_r.
Qed.

Lemma next_value j k : exists c s,
  write j k = String c s /\ next (write j k) = Some (c, s) /\
  starts_value c = true.
Proof.
  destruct (write_head j k) as (c & s & E & Hc).
  exists c, s. repeat split; auto. rewrite E. unfold next. cbn.
  destruct (starts_value_facts c Hc) as (-> & _). reflexivity.
Qed.


(** *** Numbers *)

Lemma append_cons c s k : (String c s +:+ k) = String c (s +:+ k).
Proof. reflexivity. Qed.

Lemma read_digits_write d k :
  ends_number k = true ->
  read_digits (NilEmpty.string_of_uint d +:+ k) = (d, k).
Proof.
  intros Hk.
  induction d; cbn [NilEmpty.string_of_uint];
    rewrite ?append_cons; cbn [read_digits]; rewrite ?IHd; try reflexivity.
  change (EmptyString +:+ k) with k.
  destruct k as [|c k]; [reflexivity|]. cbn [read_digits].
  unfold ends_number in Hk.
  destruct (digit_of c); [discriminate | reflexivity].
Qed.

Lemma ends_number_fraction k : ends_number k = true -> starts_fraction k = false.
Proof.
  destruct k as [|c k]; [reflexivity|]. unfold ends_number.
  destruct (digit_of c); [discriminate|]. now destruct (starts_fraction _).
Qed.

Lemma uint_beq_refl d : Decimal.uint_beq d d = true.
Proof. induction d; cbn; auto. Qed.

Lemma parse_int_write negative d k :
  d <> Decimal.Nil -> Decimal.unorm d = d -> ends_number k = true ->
  parse_int negative (NilEmpty.string_of_uint d +:+ k) =
  Some (JNum (Z.of_int (if negative then Decimal.Neg d else Decimal.Pos d)), k).
Proof.
  intros Hd Hn Hk. unfold parse_int. rewrite read_digits_write by assumption.
  rewrite Hn, uint_beq_refl, (ends_number_fraction k Hk).
  destruct d; [congruence | reflexivity ..].
Qed.

Lemma unorm_to_uint p : Decimal.unorm (Pos.to_uint p) = Pos.to_uint p.
Proof.
  rewrite <- Unsigned.to_of, Unsigned.of_to. reflexivity.
Qed.

Lemma digit_not_token c :
  is_digit c = true ->
  Ascii.eqb c "n" = false /\ Ascii.eqb c "t" = false /\ Ascii.eqb c "f" = false /\
  Ascii.eqb c DQUOTE = false /\ Ascii.eqb c "-" = false /\
  Ascii.eqb c "[" = false /\ Ascii.eqb c "{" = false /\ is_ws c = false.
Proof.
  destruct c as [[] [] [] [] [] [] [] []]; cbv; intros H;
    try discriminate H; repeat split.
Qed.

Lemma parse_value_unfold fuel s :
  parse_value (S fuel) s =
      match next s with
      | None => None
      | Some (c, s') =>
          if Ascii.eqb c "n" then literal "ull" JNull s'
          else if Ascii.eqb c "t" then literal "rue" (JBool true) s'
          else if Ascii.eqb c "f" then literal "alse" (JBool false) s'
          else if Ascii.eqb c DQUOTE then
            match parse_chars s' with
            | Some (str, r) => Some (JStr str, r)
            | None => None
            end
          else if Ascii.eqb c "-" then parse_int true s'
          else if Ascii.eqb c "[" then
            match next s' with
            | None => None
            | Some (c', r) =>
                if Ascii.eqb c' "]" then Some (JArr [], r)
                else
                  match parse_elements fuel s' with
                  | Some (items, r') => Some (JArr items, r')
                  | None => None
                  end
            end
          else if Ascii.eqb c "{" then
            match next s' with
            | None => None
            | Some (c', r) =>
                if Ascii.eqb c' "}" then Some (JObj [], r)
                else
                  match parse_members fuel [] s' with
                  | Some (ms, r') => Some (JObj ms, r')
                  | None => None
                  end
            end
          else parse_int false (String c s')
      end.
Proof. reflexivity. Qed.

Lemma parse_elements_unfold fuel s :
  parse_elements (S fuel) s =
      match parse_value fuel s with
      | None => None
      | Some (x, r) =>
          match next r with
          | None => None
          | Some (c, r') =>
              if Ascii.eqb c "," then
                match parse_elements fuel r' with
                | Some (xs, r'') => Some (x :: xs, r'')
                | None => None
                end
              else if Ascii.eqb c "]" then Some ([x], r')
              else None
          end
      end.
Proof. reflexivity. Qed.

Lemma parse_members_unfold fuel acc s :
  parse_members (S fuel) acc s =
      match next s with
      | None => None
      | Some (c, s1) =>
          if Ascii.eqb c DQUOTE then
            match parse_chars s1 with
            | None => None
            | Some (key, s2) =>
                match next s2 with
                | None => None
                | Some (c2, s3) =>
                    if Ascii.eqb c2 ":" then
                      match parse_value fuel s3 with
                      | None => None
                      | Some (x, r) =>
                          match next r with
                          | None => None
                          | Some (c3, r') =>
                              if Ascii.eqb c3 "," then
                                parse_members fuel (set_member key x acc) r'
                              else if Ascii.eqb c3 "}" then
                                Some (set_member key x acc, r')
                              else None
                          end
                      end
                    else None
                end
            end
          else None
      end.
Proof. reflexivity. Qed.

Lemma parse_value_num fuel n k :
  ends_number k = true ->
  parse_value (S fuel) (write_int n k) = Some (JNum n, k).
Proof.
  intros Hk. rewrite parse_value_unfold. unfold write_int.
  destruct n as [|p|p].
  - change (NilEmpty.string_of_int (Z.to_int 0) +:+ k)
      with (String "0" k).
    change (next (String "0" k)) with (Some ("0"%char, k)). cbn [Ascii.eqb Bool.eqb].
    cbv beta iota.
    change (String "0" k) with (NilEmpty.string_of_uint (Decimal.D0 Decimal.Nil) +:+ k).
    rewrite parse_int_write by (assumption || reflexivity || discriminate).
    reflexivity.
  - change (Z.to_int (Z.pos p)) with (Decimal.Pos (Pos.to_uint p)).
    change (NilEmpty.string_of_int (Decimal.Pos (Pos.to_uint p)))
      with (NilEmpty.string_of_uint (Pos.to_uint p)).
    destruct (uint_head (Pos.to_uint p) k (Unsigned.to_uint_nonnil p))
      as (c & s & E & Hc).
    destruct (digit_not_token c Hc) as (H1 & H2 & H3 & H4 & H5 & H6 & H7 & H8).
    rewrite E. unfold next. cbn [skip_ws]. rewrite H8, H1, H2, H3, H4, H5, H6, H7.
    rewrite <- E.
    rewrite parse_int_write
      by (assumption || apply Unsigned.to_uint_nonnil || apply unorm_to_uint).
    change (Decimal.Pos (Pos.to_uint p)) with (Z.to_int (Z.pos p)).
    now rewrite DecimalZ.of_to.
  - change (Z.to_int (Z.neg p)) with (Decimal.Neg (Pos.to_uint p)).
    change (NilEmpty.string_of_int (Decimal.Neg (Pos.to_uint p)) +:+ k)
      with (String "-" (NilEmpty.string_of_uint (Pos.to_uint p) +:+ k)).
    change (next (String "-" ?s)) with (Some ("-"%char, s)).
    unfold next. cbn [skip_ws is_ws Ascii.eqb Bool.eqb orb]. cbv beta iota.
    rewrite parse_int_write
      by (assumption || apply Unsigned.to_uint_nonnil || apply unorm_to_uint).
    change (Decimal.Neg (Pos.to_uint p)) with (Z.to_int (Z.neg p)).
    now rewrite DecimalZ.of_to.
Qed.


(** *** Every value reads back *)

Lemma next_token c s : is_ws c = false -> next (String c s) = Some (c, s).
Proof. intros H. unfold next. cbn [skip_ws]. now rewrite H. Qed.

Ltac tokens :=
  unfold write_string, DQUOTE, BACKSLASH;
  rewrite ?next_token by reflexivity;
  repeat match goal with
         | |- context [Ascii.eqb (Ascii ?a ?b ?c ?d ?e ?f ?g ?h) ?y] =>
             let v := eval vm_compute in (Ascii.eqb (Ascii a b c d e f g h) y) in
             change (Ascii.eqb (Ascii a b c d e f g h) y) with v
         end;
  cbv beta iota.

Lemma parse_elements_write l :
  l <> [] -> Forall reads_back l ->
  forall fuel k,
    weights_list l <= fuel -> all_distinct l ->
    parse_elements fuel (write_elements l (String "]" k)) = Some (l, k).
Proof.
  induction l as [|x l IH]; [congruence|]. intros _ HF fuel k Hfuel Hd.
  apply Forall_cons_1 in HF as [Hx HF]. destruct Hd as [Hdx Hdl].
  cbn [weights_list] in Hfuel.
  destruct fuel as [|fuel]; [lia|]. rewrite parse_elements_unfold.
  destruct l as [|y l].
  - cbn [write_elements]. rewrite Hx by (lia || reflexivity || assumption).
    tokens. reflexivity.
  - change (write_elements (x :: y :: l) (String "]" k))
      with (write x (String "," (write_elements (y :: l) (String "]" k)))).
    rewrite Hx by (lia || reflexivity || assumption).
    tokens. rewrite IH by (congruence || assumption || lia). reflexivity.
Qed.

Lemma parse_members_write ms :
  ms <> [] -> Forall (fun kv => reads_back kv.2) ms ->
  forall fuel acc k,
    weights ms <= fuel -> all_distinct_members ms ->
    parse_members fuel acc (write_fields ms (String "}" k)) =
    Some (insert_all ms acc, k).
Proof.
  induction ms as [|[key x] ms IH]; [congruence|]. intros _ HF fuel acc k Hfuel Hd.
  apply Forall_cons_1 in HF as [Hx HF]. destruct Hd as [Hdx Hdl].
  cbn [weights] in Hfuel. cbn [snd] in Hx.
  destruct fuel as [|fuel]; [lia|]. rewrite parse_members_unfold.
  destruct ms as [|[key' y] ms].
  - cbn [write_fields]. tokens. fold DQUOTE. rewrite parse_chars_write. tokens.
    rewrite Hx by (lia || reflexivity || assumption).
    tokens. reflexivity.
  - change (write_fields ((key, x) :: (key', y) :: ms) (String "}" k))
      with (write_string key
              (String ":" (write x (String "," (write_fields ((key', y) :: ms) (String "}" k)))))).
    tokens. fold DQUOTE. rewrite parse_chars_write. tokens.
    rewrite Hx by (lia || reflexivity || assumption).
    tokens. rewrite IH by (congruence || assumption || lia). reflexivity.
Qed.

Lemma set_member_fresh k v acc :
  k ∉ map fst acc -> set_member k v acc = acc ++ [(k, v)].
Proof.
  induction acc as [|[k' v'] acc IH]; cbn; [reflexivity|].
  rewrite not_elem_of_cons. intros [Hne Hnin].
  destruct (String.eqb_spec k k'); [congruence|]. now rewrite IH.
Qed.

Lemma insert_all_distinct ms acc :
  NoDup (map fst (acc ++ ms)) -> insert_all ms acc = acc ++ ms.
Proof.
  revert acc. induction ms as [|[k v] ms IH]; intros acc Hnd; cbn.
  - now rewrite app_nil_r.
  - unfold insert_all in IH. rewrite set_member_fresh.
    + rewrite IH; rewrite <- app_assoc; [reflexivity | exact Hnd].
    + rewrite map_app in Hnd. cbn in Hnd.
      apply NoDup_app in Hnd as (_ & Hdis & _).
      intros Hin. apply (Hdis k Hin). apply elem_of_cons; now left.
Qed.

Lemma write_elements_head x l k : exists k', write_elements (x :: l) k = write x k'.
Proof. destruct l; cbn [write_elements]; eauto. Qed.

Theorem parse_write j : reads_back j.
Proof.
  induction j as [| b | n | s | items IH | ms IH] using json_induction;
    intros fuel k Hfuel Hk Hd; (destruct fuel as [|fuel]; [cbn in Hfuel; lia|]).
  - reflexivity.
  - destruct b; reflexivity.
  - now apply parse_value_num.
  - rewrite parse_value_unfold. cbn [write]. tokens. fold DQUOTE.
    now rewrite parse_chars_write.
  - rewrite parse_value_unfold, write_arr. rewrite weight_arr in Hfuel.
    rewrite distinct_arr in Hd. tokens.
    destruct items as [|x items]; [cbn [write_elements]; tokens; reflexivity|].
    destruct (write_elements_head x items (String "]" k)) as (k' & E).
    destruct (next_value x k') as (c & s & _ & Hn & Hc).
    rewrite <- E in Hn. rewrite Hn.
    destruct (starts_value_facts c Hc) as (_ & -> & _).
    rewrite parse_elements_write by (congruence || assumption || lia).
    reflexivity.
  - rewrite parse_value_unfold, write_obj. rewrite weight_obj in Hfuel.
    rewrite distinct_obj in Hd. destruct Hd as [Hnd Hd]. tokens.
    destruct ms as [|[key x] ms]; [cbn [write_fields]; tokens; reflexivity|].
    assert (Hn : exists s, next (write_fields ((key, x) :: ms) (String "}" k))
                           = Some (DQUOTE, s)).
    { destruct ms as [|[key' y] ms]; cbn [write_fields]; tokens; eauto. }
    destruct Hn as (s & ->). tokens.
    rewrite parse_members_write by (congruence || assumption || lia).
    rewrite insert_all_distinct by exact Hnd. reflexivity.
Qed.


(** *** The fuel of [parse] suffices *)

Lemma length_append s1 s2 :
  String.length (s1 +:+ s2) = String.length s1 + String.length s2.
Proof.
  induction s1 as [|c s1 IH]; [reflexivity|].
  rewrite append_cons. cbn [String.length]. now rewrite IH.
Qed.

Lemma write_chars_length s k : String.length k <= String.length (write_chars s k).
Proof.
  induction s as [|c s IH]; cbn [write_chars]; [lia|].
  rewrite length_append. lia.
Qed.

Lemma write_string_length s k :
  2 + String.length k <= String.length (write_string s k).
Proof.
  unfold write_string. pose proof (write_chars_length s (String DQUOTE k)) as H.
  cbn [String.length] in *. lia.
Qed.

Lemma write_int_length n k : 1 + String.length k <= String.length (write_int n k).
Proof.
  unfold write_int. rewrite length_append.
  enough (1 <= String.length (NilEmpty.string_of_int (Z.to_int n))) by lia.
  destruct n as [|p|p]; cbn; try lia.
  pose proof (Unsigned.to_uint_nonnil p) as H.
  destruct (Pos.to_uint p); cbn; try lia; congruence.
Qed.

Lemma write_elements_length l :
  Forall fits l ->
  forall k, weights_list l + String.length k <= S (String.length (write_elements l k)).
Proof.
  induction 1 as [|x l Hx _ IH]; intros k; [cbn; lia|].
  destruct l as [|y l].
  - cbn [write_elements weights_list]. specialize (Hx k). lia.
  - change (write_elements (x :: y :: l) k)
      with (write x (String "," (write_elements (y :: l) k))).
    specialize (Hx (String "," (write_elements (y :: l) k))).
    specialize (IH k). cbn [weights_list String.length] in *. lia.
Qed.

Lemma write_fields_length ms :
  Forall (fun kv => fits kv.2) ms ->
  forall k, weights ms + String.length k <= S (String.length (write_fields ms k)).
Proof.
  induction 1 as [|[key x] ms Hx _ IH]; intros k; [cbn; lia|].
  cbn [snd] in Hx. destruct ms as [|[key' y] ms].
  - cbn [write_fields weights].
    pose proof (write_string_length key (String ":" (write x k))) as H1.
    specialize (Hx k). cbn [String.length] in *. lia.
  - change (write_fields ((key, x) :: (key', y) :: ms) k)
      with (write_string key
              (String ":" (write x (String "," (write_fields ((key', y) :: ms) k))))).
    pose proof (write_string_length key
      (String ":" (write x (String "," (write_fields ((key', y) :: ms) k))))) as H1.
    specialize (Hx (String "," (write_fields ((key', y) :: ms) k))).
    specialize (IH k). cbn [weights String.length] in *. lia.
Qed.

Lemma write_length j : fits j.
Proof.
  induction j as [| b | n | s | items IH | ms IH] using json_induction; intros k.
  - cbn [write weight]. rewrite length_append. cbn. lia.
  - destruct b; cbn [write weight]; rewrite length_append; cbn; lia.
  - cbn [write weight]. pose proof (write_int_length n k). lia.
  - cbn [write weight]. pose proof (write_string_length s k). lia.
  - rewrite write_arr, weight_arr. cbn [String.length].
    pose proof (write_elements_length items IH (String "]" k)) as H.
    cbn [String.length] in H. lia.
  - rewrite write_obj, weight_obj. cbn [String.length].
    pose proof (write_fields_length ms IH (String "}" k)) as H.
    cbn [String.length] in H. lia.
Qed.

(** Decoding the text of a value yields the value. *)
Theorem parse_text j : distinct_keys j -> parse (text j) = Some j.
Proof.
  intros Hd. unfold parse, text.
  rewrite parse_write; [reflexivity | | reflexivity | assumption].
  pose proof (write_length j EmptyString) as H. cbn [String.length] in H. lia.
Qed.

(** *** The serializer reads only the cells its argument reaches *)

(** Distinct allocated locations are no more than the heap has cells. *)
Lemma stack_length (stack : list nat) n :
  NoDup stack -> Forall (fun l => l < n) stack -> length stack <= n.
Proof.
  intros Hnd Hlt.
  enough (length stack <= length (seq 0 n)) as H by now rewrite length_seq in H.
  apply submseteq_length, NoDup_submseteq; [exact Hnd|].
  intros l Hl. apply elem_of_seq.
  pose proof (proj1 (Forall_forall _ _) Hlt l Hl) as Hl'. cbn beta in Hl'. lia.
Qed.

(** With more fuel than the heap has cells beyond the stack, the fuel does
    not run out: the result does not depend on it. *)
Lemma reify_fuel h fuel1 :
  forall fuel2 stack v,
    NoDup stack -> Forall (fun l => l < length h) stack ->
    length h < fuel1 + length stack ->
    length h < fuel2 + length stack ->
    reify fuel1 stack h v = reify fuel2 stack h v.
Proof.
  induction fuel1 as [|fuel1 IH]; intros fuel2 stack v Hnd Hlt H1 H2;
    pose proof (stack_length stack (length h) Hnd Hlt) as Hlen;
    [cbn in H1; lia|].
  destruct fuel2 as [|fuel2]; [cbn in H2; lia|].
  destruct v; try reflexivity. cbn [reify].
  destruct (decide (l ∈ stack)) as [|Hnin]; [reflexivity|].
  destruct (h !! l) as [c|] eqn:E; [|reflexivity].
  apply lookup_lt_Some in E.
  assert (forall x, reify fuel1 (l :: stack) h x = reify fuel2 (l :: stack) h x)
    as Hx.
  { intros x. apply IH; cbn [length]; try lia.
    - now constructor.
    - now constructor. }
  destruct c as [ps|items|entries]; [| |reflexivity].
  - match goal with
    | |- match ?a with _ => _ end = match ?b with _ => _ end =>
        assert (a = b) as ->; [|reflexivity]
    end.
    induction ps as [|[key x] ps IHps]; [reflexivity|].
    rewrite Hx, IHps. reflexivity.
  - match goal with
    | |- match ?a with _ => _ end = match ?b with _ => _ end =>
        assert (a = b) as ->; [|reflexivity]
    end.
    induction items as [|x items IHitems]; [reflexivity|].
    rewrite Hx, IHitems. reflexivity.
Qed.

Lemma reify_extend fuel h cs :
  closed_heap h ->
  forall stack v,
    closed_val h v ->
    reify fuel stack (h ++ cs) v = reify fuel stack h v.
Proof.
  intros Hh.
  induction fuel as [|fuel IH]; intros stack v Hv; destruct v; try reflexivity.
  unfold closed_val, closed_at in Hv. cbn [reify].
  destruct (decide (l ∈ stack)); [reflexivity|].
  rewrite lookup_app_l by assumption.
  destruct (h !! l) as [c|] eqn:E; [|reflexivity].
  apply (proj1 (Forall_lookup _ _) Hh) in E.
  destruct c as [ps|items|entries]; [| |reflexivity]; cbn [closed_cell] in E.
  - match goal with
    | |- match ?a with _ => _ end = match ?b with _ => _ end =>
        assert (a = b) as ->; [|reflexivity]
    end.
    induction E as [|[key x] ps Hx _ IHps]; [reflexivity|].
    rewrite (IH _ x Hx), IHps. reflexivity.
  - match goal with
    | |- match ?a with _ => _ end = match ?b with _ => _ end =>
        assert (a = b) as ->; [|reflexivity]
    end.
    induction E as [|x items Hx _ IHitems]; [reflexivity|].
    rewrite (IH _ x Hx), IHitems. reflexivity.
Qed.

Lemma stringify_frame h cs v :
  closed_heap h -> closed_val h v ->
  stringify (h ++ cs) v = stringify h v.
Proof.
  intros Hh Hv. unfold stringify.
  rewrite reify_extend by assumption.
  rewrite (reify_fuel h (S (length (h ++ cs))) (S (length h)) [] v);
    [reflexivity | constructor | constructor | |];
    rewrite ?length_app; cbn; lia.
Qed.

Lemma stringify_text h v r :
  stringify h v = Normal r -> r = VUndefined \/ exists s, r = VStr s.
Proof.
  unfold stringify.
  destruct (reify (S (length h)) [] h v) as [[j|]|e]; intros [= <-]; eauto.
Qed.

End JSONFacts.

(** ** The compliance data type through JSON *)

Lemma as_strings_map l :
  ComplianceDataType.as_strings (map JSON.JStr l) = Some l.
Proof. induction l as [|s l IH]; cbn; [reflexivity | now rewrite IH]. Qed.

Lemma strings_distinct l : JSON.all_distinct (map JSON.JStr l).
Proof. induction l; cbn; auto. Qed.

Lemma toJSON_distinct r : JSON.distinct_keys (ComplianceDataType.toJSON r).
Proof.
  unfold ComplianceDataType.toJSON. rewrite JSONFacts.distinct_obj.
  destruct (ComplianceDataType.description r); cbn.
  all: split; [apply (bool_decide_unpack _); vm_compute; reflexivity|].
  all: repeat split; apply strings_distinct.
Qed.

Lemma fromJSON_toJSON r :
  ComplianceDataType.fromJSON (ComplianceDataType.toJSON r) = Some r.
Proof.
  destruct r as [pii idType classification title urn formats id [d|]];
    cbn; rewrite as_strings_map; reflexivity.
Qed.

(** C7.  Serializing a compliance data type record to JSON text and
    decoding the text yields the record again, field by field, whatever the
    fields hold: an empty [supportedFieldFormats], [idType] false and an
    absent [description] included. *)
Theorem compliance_data_type_round_trip (r : ComplianceDataType.IComplianceDataType) :
  ComplianceDataType.decode (ComplianceDataType.encode r) = Some r.
Proof.
  unfold ComplianceDataType.decode, ComplianceDataType.encode.
  rewrite JSONFacts.parse_text by apply toJSON_distinct.
  apply fromJSON_toJSON.
Qed.

Example sample_data_type_round_trip :
  ComplianceDataType.decode (ComplianceDataType.encode sample_data_type)
  = Some sample_data_type.
Proof. vm_compute. reflexivity. Qed.

(** ** The operations at sample configurations *)

Lemma sample_heap_closed : closed_heap sample_heap.
Proof. repeat constructor. Qed.

Lemma bare_heap_closed : closed_heap bare_heap.
Proof. repeat constructor. Qed.

Lemma headers_instance_heap_closed : closed_heap headers_instance_heap.
Proof. repeat constructor. Qed.

Lemma credentials_heap_closed : closed_heap credentials_heap.
Proof. repeat constructor. Qed.

(** C2.  At a configuration whose [headers] is a [Headers] instance
    carrying [Content-Type: text/plain], every operation issues the default
    [Content-Type: application/json]: the caller's value does not win. *)
Theorem headers_instance_override_lost op :
  headers_instance_heap !! 1 = Some (HeadersObj [("Content-Type", "text/plain")]) /\
  get headers_instance_heap (VRef 0) "headers" = VRef 1 /\
  exists rq,
    issued (perform sample_message JSON.stringify op (VRef 0) headers_instance_heap)
      = Some rq /\
    get_prop "Content-Type" (req_headers rq) = Some (VStr "application/json").
Proof.
  split; [reflexivity|]. split; [reflexivity|].
  destruct op; eexists; (split; [reflexivity|]); reflexivity.
Qed.

(** The same merge at a plain object: the caller's [Content-Type] wins and
    the default [Accept] stays. *)
Lemma plain_headers_override op :
  exists rq,
    issued (perform sample_message JSON.stringify op (VRef 0) sample_heap) = Some rq /\
    get_prop "Content-Type" (req_headers rq) = Some (VStr "text/plain") /\
    get_prop "Accept" (req_headers rq) = Some (VStr "application/json").
Proof.
  destruct op; eexists; (split; [vm_compute; reflexivity|]); split; reflexivity.
Qed.

(** The body of a request for [data = { a: 1 }] is the JSON text of that
    object, for POST, DELETE and PUT. *)
Lemma sample_body op :
  has_body op = true ->
  exists rq,
    issued (perform sample_message JSON.stringify op (VRef 0) sample_heap) = Some rq /\
    req_body rq = Some (VStr (JSON.text (JSON.JObj [("a", JSON.JNum 1)]))).
Proof.
  destruct op; try discriminate; intros _;
    eexists; (split; [vm_compute; reflexivity|]); vm_compute; reflexivity.
Qed.

(** C5, as stated, fails: a configuration that sets a credentials mode does
    not make [getJSON] hand [fetch] an option bag with a credentials entry. *)
Lemma credentials_not_forwarded :
  ~ credentials_forwarded sample_message JSON.stringify (VRef 0) credentials_heap.
Proof.
  intros H. destruct (H GetJSON "include" eq_refl) as (rq & Hi & Hc).
  vm_compute in Hi. injection Hi as <-.
  unfold carries_credentials in Hc. cbn in Hc.
  rewrite !elem_of_cons, !elem_of_nil in Hc.
  destruct Hc as [Hc|Hc]; repeat destruct Hc as [Hc|Hc];
    discriminate || contradiction.
Qed.

Lemma failure_status_raises_api_error_witness :
  exists h' p,
    perform sample_message JSON.stringify GetJSON (VRef 0) sample_heap
      = (h', Normal p) /\
    settle p [FetchAnswer (Fulfilled not_found)] =
      Some (Rejected (ApiError 404 "Could not find the requested resource")).
Proof.
  eexists _, _. split; [reflexivity|].
  exact (proj1 (failure_status_raises_api_error sample_message JSON.stringify
                  GetJSON (VRef 0) sample_heap _ (Normal _) eq_refl)
           not_found eq_refl).
Defined.

Lemma transport_failure_propagates_witness :
  exists h' p,
    perform sample_message JSON.stringify GetHeaders (VRef 0) sample_heap
      = (h', Normal p) /\
    settle p [FetchAnswer (Rejected (Raised (VStr "offline")))] =
      Some (Rejected (Raised (VStr "offline"))).
Proof.
  eexists _, _. split; [reflexivity|].
  exact (proj1 (transport_failure_propagates sample_message JSON.stringify
                  GetHeaders (VRef 0) sample_heap _ _ (Raised (VStr "offline"))
                  eq_refl)).
Defined.

Lemma configuration_left_unchanged_witness :
  exists cs r,
    perform sample_message JSON.stringify PostJSON (VRef 0) sample_heap
      = (sample_heap ++ cs, r) /\
    (sample_heap ++ cs) !! 1 = Some (Obj [("Content-Type", VStr "text/plain")]) /\
    get (sample_heap ++ cs) (VRef 0) "data" = VRef 2.
Proof.
  destruct (configuration_left_unchanged sample_message JSON.stringify
              PostJSON (VRef 0) sample_heap) as (cs & r & E & Hcells & Hget).
  exists cs, r. split; [exact E|]. split.
  - apply Hcells. reflexivity.
  - rewrite Hget; [reflexivity | cbn; lia].
Defined.

Lemma headers_instance_not_merged_witness :
  exists rq,
    issued (perform sample_message JSON.stringify PutJSON (VRef 0)
              headers_instance_heap) = Some rq /\
    req_headers rq = base_headers.
Proof.
  eexists. split; [reflexivity|].
  refine (headers_instance_not_merged sample_message JSON.stringify
            JSONFacts.stringify_frame PutJSON (VRef 0) headers_instance_heap
            1 [("Content-Type", "text/plain")]
            headers_instance_heap_closed _ eq_refl eq_refl).
  cbn; lia.
Defined.

Lemma request_has_no_credentials_witness :
  exists rq,
    issued (perform sample_message JSON.stringify GetJSON (VRef 0)
              credentials_heap) = Some rq /\
    ~ carries_credentials rq.
Proof.
  eexists. split; [reflexivity|].
  refine (proj2 (request_has_no_credentials sample_message JSON.stringify
                   JSONFacts.stringify_frame GetJSON (VRef 0) credentials_heap
                   credentials_heap_closed _)).
  cbn; lia.
Defined.

Lemma body_is_serialized_data_witness :
  (exists rq,
      issued (perform sample_message JSON.stringify DeleteJSON (VRef 0) bare_heap)
        = Some rq /\
      req_body rq = None /\ "body" ∉ req_keys rq) /\
  (exists rq,
      issued (perform sample_message JSON.stringify DeleteJSON (VRef 0) sample_heap)
        = Some rq /\
      req_body rq = Some (VStr (JSON.text (JSON.JObj [("a", JSON.JNum 1)])))).
Proof.
  split.
  - refine (proj1 (body_is_serialized_data sample_message JSON.stringify
                     JSONFacts.stringify_frame DeleteJSON (VRef 0) bare_heap
                     eq_refl bare_heap_closed _) eq_refl).
    cbn; lia.
  - refine (proj2 (body_is_serialized_data sample_message JSON.stringify
                     JSONFacts.stringify_frame DeleteJSON (VRef 0) sample_heap
                     eq_refl sample_heap_closed _) 2 _ eq_refl _).
    + cbn; lia.
    + vm_compute; reflexivity.
Defined.

Lemma post_put_delete_differ_in_method_only_witness :
  erase_method <$>
    issued (perform sample_message JSON.stringify PostJSON (VRef 0) sample_heap) =
  erase_method <$>
    issued (perform sample_message JSON.stringify PutJSON (VRef 0) sample_heap).
Proof.
  refine (proj1 (post_put_delete_differ_in_method_only sample_message
                   JSON.stringify JSONFacts.stringify_frame (VRef 0) sample_heap
                   sample_heap_closed _)).
  cbn; lia.
Defined.

(** ** The response envelope through JSON *)

Lemma records_map l :
  ComplianceDataTypeResponse.records (map ComplianceDataType.toJSON l) = Some l.
Proof.
  induction l as [|r l IH]; cbn [map ComplianceDataTypeResponse.records];
    [reflexivity|].
  now rewrite fromJSON_toJSON, IH.
Qed.

Lemma records_distinct l : JSON.all_distinct (map ComplianceDataType.toJSON l).
Proof.
  induction l as [|r l IH]; cbn [map JSON.all_distinct]; [exact I|].
  split; [apply toJSON_distinct | exact IH].
Qed.

Lemma response_toJSON_distinct e :
  JSON.distinct_keys (ComplianceDataTypeResponse.toJSON e).
Proof.
  unfold ComplianceDataTypeResponse.toJSON. rewrite JSONFacts.distinct_obj.
  destruct (ComplianceDataType.complianceDataTypes e) as [l|]; cbn [map fst].
  - split; [apply (bool_decide_unpack _); vm_compute; reflexivity|].
    cbn [JSON.all_distinct_members]. split; [|exact I].
    rewrite JSONFacts.distinct_arr. apply records_distinct.
  - split; [constructor | exact I].
Qed.

(** X10.  Serializing a response envelope to JSON text and decoding the text
    yields the envelope again: with its list of data types, record by
    record and in order, with an empty list, and with no list at all. *)
Theorem response_round_trip (e : ComplianceDataType.IComplianceDataTypeResponse) :
  ComplianceDataTypeResponse.decode (ComplianceDataTypeResponse.encode e) = Some e.
Proof.
  unfold ComplianceDataTypeResponse.decode, ComplianceDataTypeResponse.encode.
  rewrite JSONFacts.parse_text by apply response_toJSON_distinct.
  destruct e as [[l|]]; cbn; [|reflexivity].
  now rewrite records_map.
Qed.

(** ** The further properties at sample configurations *)

Lemma empty_config_heap_closed : closed_heap empty_config_heap.
Proof. repeat constructor. Qed.

Lemma null_data_heap_closed : closed_heap null_data_heap.
Proof. repeat constructor. Qed.

Lemma cyclic_heap_closed : closed_heap cyclic_heap.
Proof. repeat constructor. Qed.

Lemma two_configs_heap_closed : closed_heap two_configs_heap.
Proof. repeat constructor. Qed.

Lemma url_is_forwarded_witness :
  (exists h' p init k,
      perform sample_message JSON.stringify PutJSON (VRef 0) empty_config_heap
        = (h', Normal p) /\
      p = AwaitFetch (VStr EmptyString) init k) /\
  (exists h' p init k,
      perform sample_message JSON.stringify GetHeaders (VRef 0) empty_config_heap
        = (h', Normal p) /\
      p = AwaitFetch VUndefined init k).
Proof.
  split.
  - destruct (url_is_forwarded sample_message JSON.stringify PutJSON (VRef 0)
                empty_config_heap _ _ ltac:(cbn; lia) eq_refl)
      as (init & k & Hp).
    eexists _, _, init, k. split; [reflexivity | exact Hp].
  - destruct (url_is_forwarded sample_message JSON.stringify GetHeaders (VRef 0)
                empty_config_heap _ _ ltac:(cbn; lia) eq_refl)
      as (init & k & Hp).
    eexists _, _, init, k. split; [reflexivity | exact Hp].
Defined.

Lemma retrieval_always_issues_witness :
  exists h' url init k,
    perform sample_message JSON.stringify GetJSON (VRef 0) cyclic_heap
      = (h', Normal (AwaitFetch url init k)) /\
    keys (own_props h' init) = ["headers"; "method"] /\
    request_prop h' init "body" = None /\
    request_prop h' init "method" = Some (VStr "GET").
Proof.
  exact (retrieval_always_issues sample_message JSON.stringify GetJSON (VRef 0)
           cyclic_heap eq_refl).
Defined.

Lemma request_objects_are_fresh_witness :
  exists h' url init k l l' ps,
    perform sample_message JSON.stringify GetJSON (VRef 0) headers_instance_heap
      = (h', Normal (AwaitFetch url init k)) /\
    init = VRef l /\ 2 <= l /\
    get h' init "headers" = VRef l' /\ 2 <= l' /\
    h' !! l' = Some (Obj ps).
Proof.
  destruct (request_objects_are_fresh sample_message JSON.stringify GetJSON
              (VRef 0) headers_instance_heap _ _ _ _ ltac:(cbn; lia) eq_refl)
    as (l & l' & ps & H).
  eexists _, _, _, _, l, l', ps. split; [reflexivity | exact H].
Defined.


Lemma only_url_headers_data_matter_witness :
  issued (perform sample_message JSON.stringify PostJSON (VRef 0) two_configs_heap) =
  issued (perform sample_message JSON.stringify PostJSON (VRef 1) two_configs_heap).
Proof.
  refine (only_url_headers_data_matter sample_message JSON.stringify
            JSONFacts.stringify_frame PostJSON (VRef 0) (VRef 1) two_configs_heap
            two_configs_heap_closed _ _ eq_refl eq_refl eq_refl); cbn; lia.
Defined.

Lemma absent_headers_give_defaults_witness :
  exists rq,
    issued (perform sample_message JSON.stringify GetHeaders (VRef 0) bare_heap)
      = Some rq /\
    req_headers rq =
      [("Accept", VStr "application/json");
       ("Content-Type", VStr "application/json")].
Proof.
  eexists. split; [reflexivity|].
  refine (absent_headers_give_defaults sample_message JSON.stringify
            JSONFacts.stringify_frame GetHeaders (VRef 0) bare_heap
            bare_heap_closed _ (or_introl eq_refl)).
  cbn; lia.
Defined.

Lemma body_follows_truthiness_witness :
  (exists rq,
      issued (perform sample_message JSON.stringify PostJSON (VRef 0) null_data_heap)
        = Some rq /\
      req_body rq = None /\ req_keys rq = ["headers"; "method"]) /\
  (exists rq,
      issued (perform sample_message JSON.stringify PostJSON (VRef 0) sample_heap)
        = Some rq /\
      req_body rq = Some (VStr (JSON.text (JSON.JObj [("a", JSON.JNum 1)]))) /\
      req_keys rq = ["body"; "headers"; "method"]).
Proof.
  split.
  - refine (proj1 (body_follows_truthiness sample_message JSON.stringify
                     JSONFacts.stringify_frame PostJSON (VRef 0) null_data_heap
                     eq_refl null_data_heap_closed _) eq_refl).
    cbn; lia.
  - refine (proj2 (body_follows_truthiness sample_message JSON.stringify
                     JSONFacts.stringify_frame PostJSON (VRef 0) sample_heap
                     eq_refl sample_heap_closed _) _ eq_refl _).
    + cbn; lia.
    + vm_compute; reflexivity.
Defined.

Lemma serializer_failure_is_thrown_witness :
  exists cs,
    perform sample_message JSON.stringify PutJSON (VRef 0) cyclic_heap
      = (cyclic_heap ++ cs, Throw JSON.cyclic).
Proof.
  refine (serializer_failure_is_thrown sample_message JSON.stringify
            JSONFacts.stringify_frame PutJSON (VRef 0) cyclic_heap JSON.cyclic
            eq_refl cyclic_heap_closed _ eq_refl _).
  - cbn; lia.
  - vm_compute; reflexivity.
Defined.

Lemma operations_keep_heap_closed_witness :
  closed_heap
    (perform sample_message JSON.stringify PostJSON (VRef 0) sample_heap).1.
Proof.
  refine (operations_keep_heap_closed sample_message JSON.stringify
            JSONFacts.stringify_frame JSONFacts.stringify_text
            PostJSON (VRef 0) sample_heap sample_heap_closed _).
  cbn; lia.
Defined.

Lemma second_call_issues_same_request_witness :
  issued (perform sample_message JSON.stringify DeleteJSON (VRef 0)
            (perform sample_message JSON.stringify PostJSON (VRef 0) sample_heap).1) =
  issued (perform sample_message JSON.stringify DeleteJSON (VRef 0) sample_heap).
Proof.
  refine (second_call_issues_same_request sample_message JSON.stringify
            JSONFacts.stringify_frame JSONFacts.stringify_text
            PostJSON DeleteJSON (VRef 0) sample_heap sample_heap_closed _).
  cbn; lia.
Defined.
